(** * A transactional memory over lockable segments (tm.cpp)

    Shallow embedding of the transaction manager: regions made of
    segments, each segment guarded by a reader-writer lock, transactions
    that write in place under an undo log, and [rollback] on every abort.

    The C++ objects live on the heap and are reached through pointers that
    are copied freely ([region->segments], [trans->locks], ...), so the
    model keeps one store per kind of object and the vectors hold pointers
    into it.  Dereferencing a pointer that is not live, or unlocking a
    mutex that is not held, has no defined behaviour: an operation of the
    model then yields [None]. *)

From stdpp Require Import base option list gmap strings.
From Stdlib Require Import ZArith Strings.Byte.

Local Open Scope Z_scope.

(** ** Pointers *)

(** [shared_t]: address of a [struct region]. *)
Abbreviation shared_t := positive (only parsing).
(** [tx_t]: address of a [struct transaction]. *)
Abbreviation tx_t := positive (only parsing).
(** [struct segment*].  The mutex is a member of the segment, so a
    [shared_mutex*] is the address of the segment that holds it. *)
Abbreviation seg_ptr := positive (only parsing).

(** ** Raw memory

    One address space, as in the process: the buffers of the segments and
    the private buffers of the client are ranges of it.  [free] of a buffer
    leaves the bytes as they are (the model does not track which raw
    ranges are allocated; the segments do). *)

Definition memory := Z → byte.

Definition load_bytes (m : memory) (a : Z) (n : nat) : list byte :=
  map (λ i, m (a + Z.of_nat i)) (seq 0 n).

Definition store_bytes (m : memory) (a : Z) (bs : list byte) : memory :=
  λ x, if (a <=? x) && (x <? a + Z.of_nat (length bs))
       then nth (Z.to_nat (x - a)) bs x00
       else m x.

(** [memcpy(dst, src, n)] between two ranges of the address space. *)
Definition memcpy (m : memory) (dst src : Z) (n : Z) : memory :=
  store_bytes m dst (load_bytes m src (Z.to_nat n)).

(** [memset(dst, 0, n)]. *)
Definition memset0 (m : memory) (dst : Z) (n : Z) : memory :=
  store_bytes m dst (repeat x00 (Z.to_nat n)).

Definition byte_of_Z (z : Z) : byte :=
  default x00 (Byte.of_N (Z.to_N (z mod 256))).

(** A pointer value stored through a [void**]: 8 bytes, little endian. *)
Definition pointer_bytes (p : Z) : list byte :=
  map (λ i, byte_of_Z (p / 256 ^ Z.of_nat i)) (seq 0 8).

(** ** The structs *)

(** [std::shared_mutex], as the code relies on it: an exclusive owner or a
    number of shared owners.  The mutex does not know who its owners are. *)
Record shared_mutex := Mutex { writer : bool; readers : nat }.

Definition unlocked : shared_mutex := Mutex false 0.

Module segment.
Record t := mk { lock : shared_mutex; mem : Z; size : Z; freed : bool }.
Definition set_lock (l : shared_mutex) (s : t) : t :=
  mk l (mem s) (size s) (freed s).
Definition set_freed (b : bool) (s : t) : t :=
  mk (lock s) (mem s) (size s) b.
Definition set_mem (a : Z) (s : t) : t :=
  mk (lock s) a (size s) (freed s).
Definition set_size (n : Z) (s : t) : t :=
  mk (lock s) (mem s) n (freed s).
End segment.

Module region.
Record t := mk { start : Z; segments : list seg_ptr; size : Z; align : Z }.
Definition set_segments (l : list seg_ptr) (r : t) : t :=
  mk (start r) l (size r) (align r).
Definition set_start (a : Z) (r : t) : t :=
  mk a (segments r) (size r) (align r).
Definition set_size (n : Z) (r : t) : t :=
  mk (start r) (segments r) n (align r).
Definition set_align (n : Z) (r : t) : t :=
  mk (start r) (segments r) (size r) n.
End region.

(** An undo record.  [old_data] is a buffer that [tm_write] allocates for
    this record alone and nobody else points to: the model keeps its
    content in the record. *)
Module log.
Record t := mk { size : Z; location : Z; old_data : list byte }.
End log.

Module transaction.
Record t := mk {
  logs : list log.t;
  to_free : list seg_ptr;
  to_free_locks : list seg_ptr;
  new_segments : list seg_ptr;
  new_seg_locks : list seg_ptr;
  region : shared_t;
  is_ro : bool;
  locks : list seg_ptr;
  read_locks : list seg_ptr
}.
Definition set_logs (v : list log.t) (x : t) : t :=
  mk v (to_free x) (to_free_locks x) (new_segments x) (new_seg_locks x)
     (region x) (is_ro x) (locks x) (read_locks x).
Definition set_to_free_locks (v : list seg_ptr) (x : t) : t :=
  mk (logs x) (to_free x) v (new_segments x) (new_seg_locks x)
     (region x) (is_ro x) (locks x) (read_locks x).
Definition set_new_segments (v : list seg_ptr) (x : t) : t :=
  mk (logs x) (to_free x) (to_free_locks x) v (new_seg_locks x)
     (region x) (is_ro x) (locks x) (read_locks x).
Definition set_new_seg_locks (v : list seg_ptr) (x : t) : t :=
  mk (logs x) (to_free x) (to_free_locks x) (new_segments x) v
     (region x) (is_ro x) (locks x) (read_locks x).
Definition set_locks (v : list seg_ptr) (x : t) : t :=
  mk (logs x) (to_free x) (to_free_locks x) (new_segments x) (new_seg_locks x)
     (region x) (is_ro x) v (read_locks x).
Definition set_read_locks (v : list seg_ptr) (x : t) : t :=
  mk (logs x) (to_free x) (to_free_locks x) (new_segments x) (new_seg_locks x)
     (region x) (is_ro x) (locks x) v.
End transaction.

(** [enum class Alloc] of tm.hpp. *)
Inductive Alloc := success | abort | nomem.

(** ** The world *)

(** What the helpers and the lock primitives were asked to do, the most
    recent call first. *)
Inductive event :=
  | EvRollback (tx : tx_t)
  | EvCheckLock (tx : tx_t) (l : seg_ptr)
  | EvTryLock (l : seg_ptr)
  | EvTryLockShared (l : seg_ptr)
  | EvPrintf (s : string).

Record world := World {
  bytes : memory;
  regions : gmap positive region.t;
  segs : gmap positive segment.t;
  txs : gmap positive transaction.t;
  trace : list event
}.

Definition set_bytes (m : memory) (w : world) : world :=
  World m (regions w) (segs w) (txs w) (trace w).
Definition set_regions (r : gmap positive region.t) (w : world) : world :=
  World (bytes w) r (segs w) (txs w) (trace w).
Definition set_segs (s : gmap positive segment.t) (w : world) : world :=
  World (bytes w) (regions w) s (txs w) (trace w).
Definition set_txs (t : gmap positive transaction.t) (w : world) : world :=
  World (bytes w) (regions w) (segs w) t (trace w).
Definition set_trace (e : list event) (w : world) : world :=
  World (bytes w) (regions w) (segs w) (txs w) e.

(** ** State and undefined behaviour *)

Definition M (A : Type) : Type := world → option (A * world).

Definition ret {A} (a : A) : M A := λ w, Some (a, w).
Definition bind {A B} (m : M A) (k : A → M B) : M B :=
  λ w, match m w with
       | Some (a, w') => k a w'
       | None => None
       end.
Definition undefined {A} : M A := λ _, None.

Notation "'do' x <- m ;; k" := (bind m (λ x, k))
  (at level 10, x name, m at level 90, k at level 200).
Notation "'run' m ;; k" := (bind m (λ _, k))
  (at level 10, m at level 90, k at level 200).

Definition get : M world := λ w, Some (w, w).
Definition modify (f : world → world) : M unit := λ w, Some (tt, f w).
Definition emit (e : event) : M unit := modify (λ w, set_trace (e :: trace w) w).

(** [for (auto x : v) body]. *)
Fixpoint for_each {A} (l : list A) (body : A → M unit) : M unit :=
  match l with
  | [] => ret tt
  | x :: rest => run body x ;; for_each rest body
  end.

Definition deref_region (p : shared_t) : M region.t :=
  λ w, match regions w !! p with Some r => Some (r, w) | None => None end.
Definition deref_seg (p : seg_ptr) : M segment.t :=
  λ w, match segs w !! p with Some s => Some (s, w) | None => None end.
Definition deref_tx (p : tx_t) : M transaction.t :=
  λ w, match txs w !! p with Some t => Some (t, w) | None => None end.

Definition update_region (p : shared_t) (f : region.t → region.t) : M unit :=
  do r <- deref_region p ;; modify (λ w, set_regions (<[p := f r]> (regions w)) w).
Definition update_seg (p : seg_ptr) (f : segment.t → segment.t) : M unit :=
  do s <- deref_seg p ;; modify (λ w, set_segs (<[p := f s]> (segs w)) w).
Definition update_tx (p : tx_t) (f : transaction.t → transaction.t) : M unit :=
  do t <- deref_tx p ;; modify (λ w, set_txs (<[p := f t]> (txs w)) w).

(** [delete seg] and [delete trans]. *)
Definition delete_seg (p : seg_ptr) : M unit :=
  do _ <- deref_seg p ;; modify (λ w, set_segs (delete p (segs w)) w).
Definition delete_tx (p : tx_t) : M unit :=
  do _ <- deref_tx p ;; modify (λ w, set_txs (delete p (txs w)) w).

(** ** The lock primitives

    The try-acquires never block and answer from the state of the mutex
    alone; this is what [tm_free] relies on when it asks for a lock its own
    transaction may hold already.  Releasing a mutex that is not held in
    that mode is undefined. *)

Definition lock_is_free (m : shared_mutex) : bool :=
  negb (writer m) && (readers m =? 0)%nat.

Definition try_lock (l : seg_ptr) : M bool :=
  run emit (EvTryLock l) ;;
  do s <- deref_seg l ;;
  if lock_is_free (segment.lock s)
  then run update_seg l (segment.set_lock (Mutex true 0)) ;; ret true
  else ret false.

Definition try_lock_shared (l : seg_ptr) : M bool :=
  run emit (EvTryLockShared l) ;;
  do s <- deref_seg l ;;
  if negb (writer (segment.lock s))
  then run update_seg l (segment.set_lock (Mutex false (S (readers (segment.lock s))))) ;;
       ret true
  else ret false.

Definition unlock (l : seg_ptr) : M unit :=
  do s <- deref_seg l ;;
  if writer (segment.lock s)
  then update_seg l (segment.set_lock (Mutex false (readers (segment.lock s))))
  else undefined.

Definition unlock_shared (l : seg_ptr) : M unit :=
  do s <- deref_seg l ;;
  match readers (segment.lock s) with
  | S n => update_seg l (segment.set_lock (Mutex (writer (segment.lock s)) n))
  | O => undefined
  end.

(** ** Helper functions of tm.cpp *)

Fixpoint index_of (p : seg_ptr) (l : list seg_ptr) : option nat :=
  match l with
  | [] => None
  | q :: rest => if Pos.eqb q p then Some O else S <$> index_of p rest
  end.

(** The inner loop of [free_segments]: look for [seg_to_free] in the
    segments of the region of the transaction, counting [index]; where it
    is found, erase that slot, free the buffer and delete the segment.  The
    vector holds each live segment once and the pointer is gone from it
    after the erase, so the rest of the scan finds nothing more. *)
Definition free_segment (tx : tx_t) (seg_to_free : seg_ptr) : M unit :=
  do trans <- deref_tx tx ;;
  do reg <- deref_region (transaction.region trans) ;;
  match index_of seg_to_free (region.segments reg) with
  | Some index =>
      run update_region (transaction.region trans)
            (λ r, region.set_segments (delete index (region.segments r)) r) ;;
      delete_seg seg_to_free
  | None => ret tt
  end.

Definition free_segments (tx : tx_t) (to_free : list seg_ptr) : M unit :=
  for_each to_free (free_segment tx).

(** [memcpy(change->location, change->old_data, change->size)]. *)
Definition restore (change : log.t) (m : memory) : memory :=
  store_bytes m (log.location change)
    (take (Z.to_nat (log.size change)) (log.old_data change)).

Definition rollback (tx : tx_t) : M unit :=
  run emit (EvRollback tx) ;;
  do trans <- deref_tx tx ;;
  run (if negb (transaction.is_ro trans) then
         run for_each (transaction.logs trans)
               (λ change, modify (λ w, set_bytes (restore change (bytes w)) w)) ;;
         run for_each (transaction.to_free trans)
               (λ segment, update_seg segment (segment.set_freed false)) ;;
         run free_segments tx (transaction.new_segments trans) ;;
         run for_each (transaction.locks trans) unlock ;;
         for_each (transaction.to_free_locks trans) unlock
       else ret tt) ;;
  run for_each (transaction.read_locks trans) unlock_shared ;;
  delete_tx tx.

Definition holds_lock (trans : transaction.t) (lock : seg_ptr) : bool :=
  existsb (Pos.eqb lock) (transaction.locks trans)
  || existsb (Pos.eqb lock) (transaction.read_locks trans)
  || existsb (Pos.eqb lock) (transaction.new_seg_locks trans)
  || existsb (Pos.eqb lock) (transaction.to_free_locks trans).

Definition check_lock (tx : tx_t) (lock : seg_ptr) : M bool :=
  run emit (EvCheckLock tx lock) ;;
  do trans <- deref_tx tx ;;
  ret (holds_lock trans lock).

(** ** The interface *)

(** [for (auto seg : region->segments) if (test) { body }], where every
    path of the body returns from the function: the first segment that
    passes the test runs the body and its value is the value of the
    function; [None] when the loop runs to its end. *)
Fixpoint for_first_segment (l : list seg_ptr) (test : segment.t → bool)
    (body : seg_ptr → M bool) : M (option bool) :=
  match l with
  | [] => ret None
  | p :: rest =>
      do seg <- deref_seg p ;;
      if test seg then do b <- body p ;; ret (Some b)
      else for_first_segment rest test body
  end.

(** [target >= seg->mem && target < seg->mem + seg->size]. *)
Definition contains (a : Z) (seg : segment.t) : bool :=
  (a >=? segment.mem seg) && (a <? segment.mem seg + segment.size seg).

(** [new_tx] is the answer of [new (std::nothrow)]: [None] for a null
    pointer, and the function then answers [invalid_tx], here [None]. *)
Definition tm_begin (shared : shared_t) (is_ro : bool) (new_tx : option tx_t)
    : M (option tx_t) :=
  match new_tx with
  | None => ret None
  | Some tx =>
      run modify (λ w, set_txs
            (<[tx := transaction.mk [] [] [] [] [] shared is_ro [] []]> (txs w)) w) ;;
      ret (Some tx)
  end.

Definition tm_end (shared : shared_t) (tx : tx_t) : M bool :=
  do trans <- deref_tx tx ;;
  run for_each (transaction.read_locks trans) unlock_shared ;;
  run (if negb (transaction.is_ro trans) then
         run free_segments tx (transaction.to_free trans) ;;
         run for_each (transaction.locks trans) unlock ;;
         for_each (transaction.new_seg_locks trans) unlock
       else ret tt) ;;
  run delete_tx tx ;;
  ret true.

(** The end of the body of [tm_read], once the lock is settled. *)
Definition tm_read_copy (tx : tx_t) (p : seg_ptr) (source size target : Z) : M bool :=
  do seg <- deref_seg p ;;
  if segment.freed seg then run rollback tx ;; ret false
  else
    run modify (λ w, set_bytes (memcpy (bytes w) target source size) w) ;;
    ret true.

Definition tm_read (shared : shared_t) (tx : tx_t) (source size target : Z) : M bool :=
  do reg <- deref_region shared ;;
  do r <- for_first_segment (region.segments reg) (contains source)
            (λ p,
               do held <- check_lock tx p ;;
               if negb held then
                 do got <- try_lock_shared p ;;
                 if negb got then run rollback tx ;; ret false
                 else
                   run update_tx tx (λ t, transaction.set_read_locks
                                            (transaction.read_locks t ++ [p]) t) ;;
                   tm_read_copy tx p source size target
               else tm_read_copy tx p source size target) ;;
  match r with
  | Some b => ret b
  | None => run rollback tx ;; ret false
  end.

(** The end of the body of [tm_write], once the lock is settled.
    [new_log] and [malloc_ok] tell whether [new (std::nothrow) log] and
    [malloc] gave memory. *)
Definition tm_write_log (tx : tx_t) (p : seg_ptr) (source size target : Z)
    (new_log malloc_ok : bool) : M bool :=
  do seg <- deref_seg p ;;
  if segment.freed seg then run rollback tx ;; ret false
  else if negb new_log then run rollback tx ;; ret false
  else if negb malloc_ok then run rollback tx ;; ret false
  else
    do w <- get ;;
    run update_tx tx (λ t, transaction.set_logs
          (log.mk size target (load_bytes (bytes w) target (Z.to_nat size))
             :: transaction.logs t) t) ;;
    run modify (λ w, set_bytes (memcpy (bytes w) target source size) w) ;;
    ret true.

(** The text of [printf("Not found for write\n")]. *)
Definition not_found_for_write : string :=
  String.append "Not found for write"
    (String (Ascii.ascii_of_nat 10) EmptyString).

Definition tm_write (shared : shared_t) (tx : tx_t) (source size target : Z)
    (new_log malloc_ok : bool) : M bool :=
  do reg <- deref_region shared ;;
  do r <- for_first_segment (region.segments reg) (contains target)
            (λ p,
               do held <- check_lock tx p ;;
               if negb held then
                 do got <- try_lock p ;;
                 if negb got then run rollback tx ;; ret false
                 else
                   run update_tx tx (λ t, transaction.set_locks
                                            (transaction.locks t ++ [p]) t) ;;
                   tm_write_log tx p source size target new_log malloc_ok
               else tm_write_log tx p source size target new_log malloc_ok) ;;
  match r with
  | Some b => ret b
  | None =>
      run emit (EvPrintf not_found_for_write) ;;
      run rollback tx ;;
      ret false
  end.

(** [new_seg] is the answer of [new (std::nothrow) segment], [memalign]
    the buffer that [posix_memalign] gives, [None] where they fail.  The
    new mutex is free, so [seg->lock.lock()] takes it at once. *)
Definition tm_alloc (shared : shared_t) (tx : tx_t) (size target : Z)
    (new_seg : option seg_ptr) (memalign : option Z) : M Alloc :=
  match new_seg with
  | None => ret nomem
  | Some p =>
      do reg <- deref_region shared ;;
      match memalign with
      | None => ret nomem
      | Some m =>
          run modify (λ w, set_bytes (memset0 (bytes w) m size) w) ;;
          run modify (λ w, set_bytes (store_bytes (bytes w) target (pointer_bytes m)) w) ;;
          run modify (λ w, set_segs
                (<[p := segment.mk (Mutex true 0) m size false]> (segs w)) w) ;;
          run update_tx tx (λ t, transaction.set_new_seg_locks
                                   (transaction.new_seg_locks t ++ [p]) t) ;;
          run update_tx tx (λ t, transaction.set_new_segments
                                   (transaction.new_segments t ++ [p]) t) ;;
          run update_region shared
                (λ r, region.set_segments (region.segments r ++ [p]) r) ;;
          ret success
      end
  end.

(** The end of the body of [tm_free], once the lock is settled. *)
Definition tm_free_mark (tx : tx_t) (p : seg_ptr) : M bool :=
  run update_tx tx (λ t, transaction.set_to_free_locks
                           (transaction.to_free_locks t ++ [p]) t) ;;
  run update_seg p (segment.set_freed true) ;;
  ret true.

Definition tm_free (shared : shared_t) (tx : tx_t) (target : Z) : M bool :=
  do reg <- deref_region shared ;;
  do r <- for_first_segment (region.segments reg)
            (λ seg, target =? segment.mem seg)
            (λ p,
               do got <- try_lock p ;;
               if negb got then
                 do held <- check_lock tx p ;;
                 if negb held then run rollback tx ;; ret false
                 else tm_free_mark tx p
               else tm_free_mark tx p) ;;
  match r with
  | Some b => ret b
  | None => run rollback tx ;; ret false
  end.

(** A transaction as a client drives it: one operation after the other,
    as long as each lets it continue. *)
Inductive op :=
  | OpRead (source size target : Z)
  | OpWrite (source size target : Z) (new_log malloc_ok : bool)
  | OpAlloc (size target : Z) (new_seg : option seg_ptr) (memalign : option Z)
  | OpFree (target : Z).

(** Whether the transaction can continue after the operation. *)
Definition run_op (shared : shared_t) (tx : tx_t) (o : op) : M bool :=
  match o with
  | OpRead source size target => tm_read shared tx source size target
  | OpWrite source size target new_log malloc_ok =>
      tm_write shared tx source size target new_log malloc_ok
  | OpAlloc size target new_seg memalign =>
      do a <- tm_alloc shared tx size target new_seg memalign ;;
      ret (match a with abort => false | _ => true end)
  | OpFree target => tm_free shared tx target
  end.

Fixpoint run_ops (shared : shared_t) (tx : tx_t) (ops : list op) : M bool :=
  match ops with
  | [] => ret true
  | o :: rest =>
      do go <- run_op shared tx o ;;
      if go then run_ops shared tx rest else ret false
  end.

(** ** Vocabulary of the statements *)

(** The segment that the loops of [tm_read], [tm_write] and [tm_free]
    stop at: [Some (Some p)] for the first pointer whose segment passes the
    test, [Some None] when none does, [None] when the scan reaches a
    pointer that is not live. *)
Fixpoint locate (h : gmap positive segment.t) (test : segment.t → bool)
    (l : list seg_ptr) : option (option seg_ptr) :=
  match l with
  | [] => Some None
  | p :: rest =>
      match h !! p with
      | Some seg => if test seg then Some (Some p) else locate h test rest
      | None => None
      end
  end.

(** Replaying an undo log from its front to its back. *)
Definition undo (logs : list log.t) (m : memory) : memory :=
  fold_left (λ m change, restore change m) logs m.

Definition covers (a : Z) (location size : Z) : Prop :=
  location <= a < location + size.

Fixpoint rollbacks (tr : list event) : nat :=
  match tr with
  | [] => O
  | EvRollback _ :: rest => S (rollbacks rest)
  | _ :: rest => rollbacks rest
  end.

(** The events that [w'] has and [w] had not, the most recent first. *)
Definition new_events (w w' : world) : list event :=
  take (length (trace w') - length (trace w)) (trace w').

(** What does not depend on the mutex in a segment. *)
Definition seg_data (s : segment.t) : Z * Z * bool :=
  (segment.mem s, segment.size s, segment.freed s).

(** Nothing but the segments and the region vectors moved. *)
Definition quiet (w w' : world) : Prop :=
  bytes w' = bytes w ∧ txs w' = txs w ∧ trace w' = trace w.

(** Nothing but the mutexes moved. *)
Definition relocked (w w' : world) : Prop :=
  quiet w w' ∧ regions w' = regions w ∧
  ∀ q, seg_data <$> segs w' !! q = seg_data <$> segs w !! q.

(** One call of a lock primitive or of [check_lock]: an event, and
    nothing but mutexes moved. *)
Definition stepped (e : event) (w w' : world) : Prop :=
  bytes w' = bytes w ∧ txs w' = txs w ∧ regions w' = regions w ∧
  trace w' = e :: trace w ∧
  ∀ q, seg_data <$> segs w' !! q = seg_data <$> segs w !! q.

(** The state in which an aborting operation calls [rollback]: the bytes
    and the undo log are those the operation found, and no rollback ran
    before. *)
Definition rolled_back (tx : tx_t) (w w' : world) : Prop :=
  ∃ wr u tr,
    rollback tx wr = Some (u, w') ∧
    txs wr !! tx = Some tr ∧
    bytes wr = bytes w ∧
    rollbacks (trace wr) = rollbacks (trace w) ∧
    ∀ t, txs w !! tx = Some t →
         transaction.logs tr = transaction.logs t ∧
         transaction.is_ro tr = transaction.is_ro t.

(** Whether a write of the operation covers the address. *)
Definition writes_at (a : Z) (o : op) : Prop :=
  match o with
  | OpWrite _ size target _ _ => covers a target size
  | _ => False
  end.

(** Whether the operation may change the byte at the address: the
    target of a read or of a write, the buffer that an allocation zeroes
    and the eight bytes where it stores the address of that buffer. *)
Definition touches (a : Z) (o : op) : Prop :=
  match o with
  | OpRead _ size target => covers a target size
  | OpWrite _ size target _ _ => covers a target size
  | OpAlloc size target _ (Some m) => covers a m size ∨ covers a target 8
  | OpAlloc _ _ _ None => False
  | OpFree _ => False
  end.

(** A range of the address space that no live segment overlaps. *)
Definition private (w : world) (target size : Z) : Prop :=
  ∀ q sg a, segs w !! q = Some sg →
            covers a (segment.mem sg) (segment.size sg) → ¬ covers a target size.

(** An address inside a live segment. *)
Definition segment_byte (w : world) (a : Z) : Prop :=
  ∃ q sg, segs w !! q = Some sg ∧ covers a (segment.mem sg) (segment.size sg).

(** The operation asks for no lock that the transaction holds. *)
Definition asks_only_when_not_held (tx : tx_t) (m : M bool) : Prop :=
  ∀ w r w' t l,
    txs w !! tx = Some t → holds_lock t l = true → m w = Some (r, w') →
    (EvTryLock l ∉ new_events w w') ∧ (EvTryLockShared l ∉ new_events w w').

(** Every try-acquire of the operation comes after a call of [check_lock]
    on the same lock. *)
Definition checks_before_acquiring (tx : tx_t) (m : M bool) : Prop :=
  ∀ w r w' newer e older l,
    m w = Some (r, w') →
    new_events w w' = newer ++ e :: older →
    e = EvTryLock l ∨ e = EvTryLockShared l →
    EvCheckLock tx l ∈ older.

(** The events of a read or a write that found its segment [p]: the call
    of [check_lock], then the try-acquire [try] when the lock is not held,
    then the rollback when the operation aborts. *)
Definition guarded_events (tx : tx_t) (held : bool) (p : seg_ptr) (try : event)
    (evs : list event) : Prop :=
  ∃ tail, (tail = [] ∨ tail = [EvRollback tx]) ∧
          evs = tail ++ (if held then [] else [try]) ++ [EvCheckLock tx p].

(** The four lock vectors of the transaction, end to end. *)
Definition recorded (t : transaction.t) : list seg_ptr :=
  transaction.locks t ++ transaction.read_locks t
    ++ transaction.new_seg_locks t ++ transaction.to_free_locks t.

(** How many entries of the four lock vectors of the transaction are the
    lock [l]. *)
Definition lock_count (t : transaction.t) (l : seg_ptr) : nat :=
  count_occ Pos.eq_dec (recorded t) l.


(** No mutex lost its writer. *)
Definition writers_kept (w w' : world) : Prop :=
  ∀ q s, segs w !! q = Some s → writer (segment.lock s) = true →
         ∃ s', segs w' !! q = Some s' ∧ writer (segment.lock s') = true.

(** ** Regions: creation, destruction, queries *)

(** [delete region]. *)
Definition delete_region (p : shared_t) : M unit :=
  do _ <- deref_region p ;; modify (λ w, set_regions (delete p (regions w)) w).

(** [new_region], [new_seg] and [memalign] are the answers of the two
    [new (std::nothrow)] and of [posix_memalign], [None] where they fail.
    The two objects are value-initialised: null pointers, zero sizes, an
    empty vector, a free mutex.  When a later allocation fails the function
    deletes what it has allocated and answers [invalid_shared], here
    [None]. *)
Definition tm_create (size align : Z) (new_region : option shared_t)
    (new_seg : option seg_ptr) (memalign : option Z) : M (option shared_t) :=
  match new_region with
  | None => ret None
  | Some reg =>
      run modify (λ w, set_regions (<[reg := region.mk 0 [] 0 0]> (regions w)) w) ;;
      match new_seg with
      | None => run delete_region reg ;; ret None
      | Some seg =>
          run modify (λ w, set_segs
                (<[seg := segment.mk unlocked 0 0 false]> (segs w)) w) ;;
          match memalign with
          | None => run delete_seg seg ;; run delete_region reg ;; ret None
          | Some start =>
              run update_region reg (region.set_start start) ;;
              do r <- deref_region reg ;;
              run modify (λ w, set_bytes (memset0 (bytes w) (region.start r) size) w) ;;
              run update_region reg (region.set_align align) ;;
              run update_region reg (region.set_size size) ;;
              do r <- deref_region reg ;;
              run update_seg seg (segment.set_mem (region.start r)) ;;
              run update_seg seg (segment.set_size size) ;;
              run update_seg seg (segment.set_freed false) ;;
              run update_region reg
                    (λ r, region.set_segments (region.segments r ++ [seg]) r) ;;
              ret (Some reg)
          end
      end
  end.

Definition tm_destroy (shared : shared_t) : M unit :=
  do reg <- deref_region shared ;;
  run for_each (region.segments reg) delete_seg ;;
  modify (λ w, set_regions (delete shared (regions w)) w).

Definition tm_start (shared : shared_t) : M Z :=
  do reg <- deref_region shared ;; ret (region.start reg).

Definition tm_size (shared : shared_t) : M Z :=
  do reg <- deref_region shared ;; ret (region.size reg).

Definition tm_align (shared : shared_t) : M Z :=
  do reg <- deref_region shared ;; ret (region.align reg).

(** What the three queries read in a region. *)
Definition reg_data (r : region.t) : Z * Z * Z :=
  (region.start r, region.size r, region.align r).

(** No region appeared or disappeared, and none changed what the queries
    read. *)
Definition region_stable (w w' : world) : Prop :=
  ∀ q, reg_data <$> regions w' !! q = reg_data <$> regions w !! q.

(** The transaction that [tm_begin] makes. *)
Definition fresh_tx (shared : shared_t) (is_ro : bool) : transaction.t :=
  transaction.mk [] [] [] [] [] shared is_ro [] [].

(** Every undo record holds as many old bytes as its size says. *)
Definition well_sized (logs : list log.t) : Prop :=
  Forall (λ c, length (log.old_data c) = Z.to_nat (log.size c)) logs.

(** ** A small region to run the code on

    Region 1 has the root segment 1, sixteen bytes at address 100 that
    hold 5, and a second segment 2, eight bytes at address 200 that hold 0.
    The client has eight bytes of 1 at address 1000 and eight bytes of 2
    at address 1008.  Transaction 1 is as [tm_begin] makes it, read-write. *)

(** The world that a computation leaves (the world it started in, when
    it is undefined). *)
Definition after {A} (m : M A) (w : world) : world :=
  match m w with
  | Some (_, w') => w'
  | None => w
  end.

Definition ex_bytes : memory :=
  λ a, if (1000 <=? a) && (a <? 1008) then x01
       else if (1008 <=? a) && (a <? 1016) then x02
       else if (100 <=? a) && (a <? 116) then x05
       else x00.

Definition ex_tx : transaction.t :=
  transaction.mk [] [] [] [] [] 1%positive false [] [].

Definition ex_w0 : world :=
  World ex_bytes
        {[ 1%positive := region.mk 100 [1%positive; 2%positive] 16 8 ]}
        {[ 1%positive := segment.mk unlocked 100 16 false;
           2%positive := segment.mk unlocked 200 8 false ]}
        {[ 1%positive := ex_tx ]}
        [].

(** The transaction reads the root segment, writes the 1s and then the 2s
    over its first eight bytes, and aborts in a read of an address that no
    segment contains. *)
Definition ex1_pre : list op := [OpRead 100 8 2000].
Definition ex1_post : list op := [OpWrite 1008 8 100 true true].
Definition ex1_wk : world := after (run_ops 1 1 ex1_pre) ex_w0.
Definition ex1_w_end : world :=
  after (run_ops 1 1 (OpWrite 1000 8 100 true true :: ex1_post)) ex1_wk.
Definition ex1_w' : world := after (run_op 1 1 (OpRead 5000 8 2000)) ex1_w_end.

(** The transaction writes the 1s over the first eight bytes of the root
    segment. *)
Definition ex2_w1 : world := after (tm_write 1 1 1000 8 100 true true) ex_w0.

(** The transaction frees the second segment; then it commits, or it
    reads from that segment. *)
Definition ex3_w : world := after (tm_free 1 1 200) ex_w0.
Definition ex3_w' : world := after (tm_end 1 1) ex3_w.
Definition ex3_t : transaction.t :=
  transaction.set_to_free_locks [2%positive] ex_tx.
Definition ex3_r' : world := after (tm_read 1 1 200 8 2000) ex3_w.


(** The transaction writes to the second segment, and so holds its lock;
    then it frees that segment. *)
Definition ex6_w : world := after (tm_write 1 1 1000 8 200 true true) ex_w0.
Definition ex6_w' : world := after (tm_free 1 1 200) ex6_w.
Definition ex6_t : transaction.t :=
  transaction.set_logs [log.mk 8 200 (repeat x00 8)]
    (transaction.set_locks [2%positive] ex_tx).

(** The transaction allocates sixteen bytes, which the allocator finds at
    address 400 for the new segment 3. *)
Definition ex10_w' : world :=
  after (tm_alloc 1 1 16 3000 (Some 3%positive) (Some 400)) ex_w0.

(** The same world, where another transaction reads the root segment
    first. *)
Definition ex8_w0 : world :=
  set_txs (<[2%positive := fresh_tx 1 true]> (txs ex_w0)) ex_w0.
Definition ex8_w : world := after (tm_read 1 2 100 8 2100) ex8_w0.

(** The small region after transaction 1 wrote to the root segment, with a
    second transaction that has just begun. *)
Definition ex9_w : world :=
  set_txs (<[2%positive := fresh_tx 1 false]> (txs ex2_w1)) ex2_w1.



(** ** Reasoning about the monad *)

Lemma bind_inv {A B} (m : M A) (k : A → M B) w r :
  bind m k w = Some r → ∃ a w1, m w = Some (a, w1) ∧ k a w1 = Some r.
Proof.
  unfold bind. destruct (m w) as [[a w1]|]; [|discriminate]. eauto.
Qed.

Lemma deref_region_inv p w r w' :
  deref_region p w = Some (r, w') → regions w !! p = Some r ∧ w' = w.
Proof. unfold deref_region. destruct (regions w !! p); naive_solver. Qed.

Lemma deref_seg_inv p w s w' :
  deref_seg p w = Some (s, w') → segs w !! p = Some s ∧ w' = w.
Proof. unfold deref_seg. destruct (segs w !! p); naive_solver. Qed.

Lemma deref_tx_inv p w t w' :
  deref_tx p w = Some (t, w') → txs w !! p = Some t ∧ w' = w.
Proof. unfold deref_tx. destruct (txs w !! p); naive_solver. Qed.

Ltac minv_step :=
  match goal with
  | H : bind _ _ _ = Some _ |- _ =>
      apply bind_inv in H; destruct H as (? & ? & ? & H)
  | H : deref_region _ _ = Some _ |- _ =>
      apply deref_region_inv in H; destruct H as [H ?]; subst
  | H : deref_seg _ _ = Some _ |- _ =>
      apply deref_seg_inv in H; destruct H as [H ?]; subst
  | H : deref_tx _ _ = Some _ |- _ =>
      apply deref_tx_inv in H; destruct H as [H ?]; subst
  | H : ret _ _ = Some _ |- _ => unfold ret in H; simplify_eq
  | H : get _ = Some _ |- _ => unfold get in H; simplify_eq
  | H : modify _ _ = Some _ |- _ => unfold modify in H; simplify_eq
  | H : emit _ _ = Some _ |- _ => unfold emit, modify in H; simplify_eq
  | H : undefined _ = Some _ |- _ => discriminate H
  | H : update_region _ _ _ = Some _ |- _ => unfold update_region in H
  | H : update_seg _ _ _ = Some _ |- _ => unfold update_seg in H
  | H : update_tx _ _ _ = Some _ |- _ => unfold update_tx in H
  | H : delete_seg _ _ = Some _ |- _ => unfold delete_seg in H
  | H : delete_tx _ _ = Some _ |- _ => unfold delete_tx in H
  | H : (if ?b then _ else _) _ = Some _ |- _ => destruct b eqn:?
  | H : match ?x with _ => _ end _ = Some _ |- _ => destruct x eqn:?
  end.
Ltac minv := repeat minv_step.

(** [for_each] keeps what every round keeps. *)
Lemma for_each_keeps {A} (R : world → world → Prop) `{!PreOrder R}
    (l : list A) (body : A → M unit) :
  (∀ x w u w', body x w = Some (u, w') → R w w') →
  ∀ w u w', for_each l body w = Some (u, w') → R w w'.
Proof.
  intros Hbody. induction l as [|x l IH]; intros w u w' H; simpl in H.
  - minv. reflexivity.
  - minv. etrans; eauto.
Qed.

Lemma for_first_segment_locate l test body w :
  for_first_segment l test body w =
  match locate (segs w) test l with
  | None => None
  | Some None => Some (None, w)
  | Some (Some p) => (do b <- body p ;; ret (Some b)) w
  end.
Proof.
  induction l as [|p l IH]; simpl; [done|].
  unfold bind at 1, deref_seg.
  destruct (segs w !! p) as [seg|]; [|done].
  destruct (test seg); [done|]. apply IH.
Qed.

Lemma locate_ext h h' test l :
  (∀ q, seg_data <$> h' !! q = seg_data <$> h !! q) →
  (∀ s s', seg_data s = seg_data s' → test s = test s') →
  locate h' test l = locate h test l.
Proof.
  intros Hh Ht. induction l as [|p l IH]; simpl; [done|].
  specialize (Hh p).
  destruct (h' !! p) as [s'|], (h !! p) as [s|]; simpl in Hh; try done.
  rewrite (Ht s' s) by congruence. destruct (test s); [done|]. apply IH.
Qed.

(** ** Frames *)

#[local] Instance quiet_preorder : PreOrder quiet.
Proof.
  split.
  - by intros w.
  - intros w1 w2 w3 (?&?&?) (?&?&?). unfold quiet. split_and!; congruence.
Qed.

#[local] Instance relocked_preorder : PreOrder relocked.
Proof.
  split.
  - by intros w.
  - intros w1 w2 w3 (?&?&?) (?&?&?). unfold relocked.
    split_and!; [by etrans|congruence|]. intros q. congruence.
Qed.

Lemma unlock_relocked l w u w' : unlock l w = Some (u, w') → relocked w w'.
Proof.
  unfold unlock. intros H. minv. unfold relocked, quiet. simpl.
  split_and!; try done. intros q.
  destruct (decide (l = q)) as [->|]; by simplify_map_eq.
Qed.

Lemma unlock_shared_relocked l w u w' :
  unlock_shared l w = Some (u, w') → relocked w w'.
Proof.
  unfold unlock_shared. intros H. minv. unfold relocked, quiet. simpl.
  split_and!; try done. intros q.
  destruct (decide (l = q)) as [->|]; by simplify_map_eq.
Qed.

Lemma free_segments_quiet tx l w u w' :
  free_segments tx l w = Some (u, w') → quiet w w'.
Proof.
  apply for_each_keeps; [apply _|]. clear. intros p w u w' H.
  unfold free_segment in H. minv; done.
Qed.

Lemma for_each_restore logs w :
  for_each logs (λ change, modify (λ w, set_bytes (restore change (bytes w)) w)) w
  = Some (tt, set_bytes (undo logs (bytes w)) w).
Proof.
  revert w. induction logs as [|c logs IH]; intros w; simpl.
  - by destruct w.
  - unfold bind, modify at 1. rewrite IH. by destruct w.
Qed.

(** What [rollback] does to the trace, to the transaction and to the
    bytes. *)
Lemma rollback_inv tx w u w' :
  rollback tx w = Some (u, w') →
  ∃ t, txs w !! tx = Some t ∧
       trace w' = EvRollback tx :: trace w ∧
       txs w' = delete tx (txs w) ∧
       bytes w' = undo (if transaction.is_ro t then [] else transaction.logs t) (bytes w).
Proof.
  unfold rollback. intros Hrun.
  apply bind_inv in Hrun as (? & w1 & Hemit & Hrun).
  unfold emit, modify in Hemit. simplify_eq.
  apply bind_inv in Hrun as (t & ? & Ht & Hrun).
  apply deref_tx_inv in Ht as [Ht ->]. simpl in Ht.
  apply bind_inv in Hrun as (? & w2 & Hrw & Hrun).
  apply bind_inv in Hrun as (? & w3 & Hshared & Hrun).
  exists t. split; [done|].
  assert (bytes w2 = undo (if transaction.is_ro t then [] else transaction.logs t) (bytes w)
          ∧ txs w2 = txs w ∧ trace w2 = EvRollback tx :: trace w) as (Hb & Htx & Htr).
  { destruct (transaction.is_ro t); simpl in Hrw.
    - unfold ret in Hrw. by simplify_eq.
    - apply bind_inv in Hrw as (? & wa & Hlogs & Hrw).
      rewrite for_each_restore in Hlogs. simplify_eq.
      apply bind_inv in Hrw as (? & wb & Hfree & Hrw).
      apply bind_inv in Hrw as (? & wc & Hallocs & Hrw).
      apply bind_inv in Hrw as (? & wd & Hlocks & Hrw).
      apply (for_each_keeps quiet) in Hfree as (?&?&?);
        [|clear; intros p w u w' H; minv; done].
      apply free_segments_quiet in Hallocs as (?&?&?).
      apply (for_each_keeps relocked) in Hlocks as ((?&?&?)&_);
        [|intros ?????; by eapply unlock_relocked].
      apply (for_each_keeps relocked) in Hrw as ((?&?&?)&_);
        [|intros ?????; by eapply unlock_relocked].
      simpl in *. split_and!; congruence. }
  apply (for_each_keeps relocked) in Hshared as ((?&?&?)&_);
    [|intros ?????; by eapply unlock_shared_relocked].
  clear Hrw. minv. simpl in *. split_and!; congruence.
Qed.

Lemma check_lock_inv tx l w b w' :
  check_lock tx l w = Some (b, w') →
  ∃ t, txs w !! tx = Some t ∧ b = holds_lock t l ∧
       w' = set_trace (EvCheckLock tx l :: trace w) w.
Proof. unfold check_lock. intros H. minv. eauto. Qed.

Lemma try_lock_inv l w b w' :
  try_lock l w = Some (b, w') →
  stepped (EvTryLock l) w w' ∧ ∃ s, segs w !! l = Some s ∧
  b = lock_is_free (segment.lock s).
Proof.
  unfold try_lock. intros H. minv; simpl in *.
  - split; [|eauto]. unfold stepped; simpl. split_and!; try done.
    intros q. destruct (decide (l = q)) as [->|]; by simplify_map_eq.
  - split; [|eauto]. by unfold stepped.
Qed.

Lemma try_lock_shared_inv l w b w' :
  try_lock_shared l w = Some (b, w') →
  stepped (EvTryLockShared l) w w' ∧ ∃ s, segs w !! l = Some s ∧
  b = negb (writer (segment.lock s)).
Proof.
  unfold try_lock_shared. intros H. minv; simpl in *.
  - split; [|eauto]. unfold stepped; simpl. split_and!; try done.
    intros q. destruct (decide (l = q)) as [->|]; by simplify_map_eq.
  - split; [|eauto]. by unfold stepped.
Qed.

Ltac prims :=
  repeat match goal with
  | H : check_lock _ _ _ = Some _ |- _ =>
      apply check_lock_inv in H as (? & ? & ? & ?)
  | H : try_lock _ _ = Some _ |- _ =>
      apply try_lock_inv in H as ((?&?&?&?&?) & ? & ? & ?)
  | H : try_lock_shared _ _ = Some _ |- _ =>
      apply try_lock_shared_inv in H as ((?&?&?&?&?) & ? & ? & ?)
  end.

Lemma rolled_back_intro tx w wr u w' :
  rollback tx wr = Some (u, w') →
  bytes wr = bytes w →
  rollbacks (trace wr) = rollbacks (trace w) →
  (∀ t, txs w !! tx = Some t →
        ∃ tr, txs wr !! tx = Some tr ∧
              transaction.logs tr = transaction.logs t ∧
              transaction.is_ro tr = transaction.is_ro t) →
  (∃ t, txs w !! tx = Some t) →
  rolled_back tx w w'.
Proof.
  intros Hr Hb Htr Ht [t Hlive].
  destruct (Ht t Hlive) as (tr & Htr' & ? & ?).
  exists wr, u, tr. split_and!; try done.
  intros t' Ht'. by simplify_eq.
Qed.

Ltac rew_frames :=
  repeat match goal with
  | H : txs ?x = _ |- context [txs ?x] => rewrite H
  | H : bytes ?x = _ |- context [bytes ?x] => rewrite H
  | H : trace ?x = _ |- context [trace ?x] => rewrite H
  | H : regions ?x = _ |- context [regions ?x] => rewrite H
  end.

Ltac explode :=
  repeat match goal with
  | H : bytes ?x = _ |- _ => is_var x; destruct x; simpl in *; subst
  end.

Ltac abort_leaf :=
  prims; subst; simpl in *; explode; simplify_map_eq;
  eapply rolled_back_intro; [eassumption| | | |]; simpl; rew_frames; simpl;
  [ done
  | done
  | intros ? ?; simplify_map_eq; eauto
  | simplify_map_eq; eauto ].

Lemma tm_read_false shared tx source size target w w' :
  tm_read shared tx source size target w = Some (false, w') →
  rolled_back tx w w'.
Proof.
  unfold tm_read. intros H.
  apply bind_inv in H as (reg & ? & Hreg & H).
  apply deref_region_inv in Hreg as [Hreg ->].
  apply bind_inv in H as (r & w1 & Hloop & H).
  rewrite for_first_segment_locate in Hloop.
  destruct (locate (segs w) (contains source) (region.segments reg))
    as [[p|]|] eqn:Hloc; [| |done].
  - unfold tm_read_copy in *. minv; abort_leaf.
  - minv.
    match goal with
    | H : rollback _ _ = Some _ |- _ =>
        pose proof (rollback_inv _ _ _ _ H) as (t & ? & _)
    end.
    abort_leaf.
Qed.

Lemma tm_write_false shared tx source size target new_log malloc_ok w w' :
  tm_write shared tx source size target new_log malloc_ok w = Some (false, w') →
  rolled_back tx w w'.
Proof.
  unfold tm_write. intros H.
  apply bind_inv in H as (reg & ? & Hreg & H).
  apply deref_region_inv in Hreg as [Hreg ->].
  apply bind_inv in H as (r & w1 & Hloop & H).
  rewrite for_first_segment_locate in Hloop.
  destruct (locate (segs w) (contains target) (region.segments reg))
    as [[p|]|] eqn:Hloc; [| |done].
  - unfold tm_write_log in *. minv; abort_leaf.
  - minv.
    match goal with
    | H : rollback _ _ = Some _ |- _ =>
        pose proof (rollback_inv _ _ _ _ H) as (t & ? & _)
    end.
    abort_leaf.
Qed.

Lemma tm_free_false shared tx target w w' :
  tm_free shared tx target w = Some (false, w') →
  rolled_back tx w w'.
Proof.
  unfold tm_free. intros H.
  apply bind_inv in H as (reg & ? & Hreg & H).
  apply deref_region_inv in Hreg as [Hreg ->].
  apply bind_inv in H as (r & w1 & Hloop & H).
  rewrite for_first_segment_locate in Hloop.
  destruct (locate (segs w) (λ seg, target =? segment.mem seg) (region.segments reg))
    as [[p|]|] eqn:Hloc; [| |done].
  - unfold tm_free_mark in *. minv; abort_leaf.
  - minv.
    match goal with
    | H : rollback _ _ = Some _ |- _ =>
        pose proof (rollback_inv _ _ _ _ H) as (t & ? & _)
    end.
    abort_leaf.
Qed.

Lemma tm_alloc_inv shared tx size target new_seg memalign w a w' :
  tm_alloc shared tx size target new_seg memalign w = Some (a, w') →
  (a = nomem ∧ w' = w ∧ (new_seg = None ∨ memalign = None)) ∨
  (a = success ∧ trace w' = trace w ∧
   ∃ p m t, new_seg = Some p ∧ memalign = Some m ∧ txs w !! tx = Some t ∧
     txs w' = <[tx := transaction.set_new_segments
                        (transaction.new_segments t ++ [p])
                        (transaction.set_new_seg_locks
                           (transaction.new_seg_locks t ++ [p]) t)]> (txs w) ∧
     bytes w' = store_bytes (memset0 (bytes w) m size) target (pointer_bytes m)).
Proof.
  unfold tm_alloc. intros H. minv; simpl in *; simplify_map_eq; eauto 10.
  right. split_and!; try done. eexists _, _, _. split_and!; try done.
  by rewrite insert_insert_eq.
Qed.

Lemma run_op_false shared tx o w w' :
  run_op shared tx o w = Some (false, w') → rolled_back tx w w'.
Proof.
  destruct o; simpl; intros H.
  - by eapply tm_read_false.
  - by eapply tm_write_false.
  - apply bind_inv in H as (a & w1 & Ha & H). unfold ret in H.
    apply tm_alloc_inv in Ha as [(-> & _)|(-> & _)]; simplify_eq.
  - by eapply tm_free_false.
Qed.

Lemma existsb_push p l : existsb (Pos.eqb p) (l ++ [p]) = true.
Proof.
  rewrite existsb_app. simpl. rewrite Pos.eqb_refl.
  by destruct (existsb _ l).
Qed.

(** What a write that lets the transaction continue has done. *)
Lemma tm_write_true shared tx source size target new_log malloc_ok w w' :
  tm_write shared tx source size target new_log malloc_ok w = Some (true, w') →
  ∃ reg p seg t t',
    regions w !! shared = Some reg ∧
    locate (segs w) (contains target) (region.segments reg) = Some (Some p) ∧
    segs w !! p = Some seg ∧ segment.freed seg = false ∧
    txs w !! tx = Some t ∧
    txs w' = <[tx := t']> (txs w) ∧
    transaction.logs t' =
      log.mk size target (load_bytes (bytes w) target (Z.to_nat size))
        :: transaction.logs t ∧
    transaction.is_ro t' = transaction.is_ro t ∧
    transaction.to_free t' = transaction.to_free t ∧
    holds_lock t' p = true ∧
    bytes w' = memcpy (bytes w) target source size ∧
    regions w' = regions w ∧
    (∀ q, seg_data <$> segs w' !! q = seg_data <$> segs w !! q) ∧
    rollbacks (trace w') = rollbacks (trace w).
Proof.
  unfold tm_write. intros H.
  apply bind_inv in H as (reg & ? & Hreg & H).
  apply deref_region_inv in Hreg as [Hreg ->].
  apply bind_inv in H as (r & w1 & Hloop & H).
  rewrite for_first_segment_locate in Hloop.
  destruct (locate (segs w) (contains target) (region.segments reg))
    as [[p|]|] eqn:Hloc; [| |done]; [|minv].
  unfold tm_write_log in *.
  minv; prims; subst; simpl in *; explode; simplify_map_eq;
    rewrite ?insert_insert_eq.
  - match goal with
    | Hd : ∀ q, seg_data <$> _ !! q = _, H1 : segs w !! p = Some ?s,
      H2 : _ !! p = Some ?s', H3 : txs w !! tx = Some ?t
      |- context [<[tx := ?v]> (txs w)] =>
        pose proof (Hd p) as Hp; rewrite H1, H2 in Hp; simpl in Hp;
        unfold seg_data in Hp; exists reg, p, s, t, v
    end.
    split_and!; try done; [congruence|].
    unfold holds_lock. simpl. by rewrite existsb_push.
  - match goal with
    | H1 : segs w !! p = Some ?s, H3 : txs w !! tx = Some ?t
      |- context [<[tx := ?v]> (txs w)] => exists reg, p, s, t, v
    end.
    split_and!; try done.
    match goal with
    | H : negb (holds_lock _ _) = false |- _ => apply negb_false_iff in H
    end.
    done.
Qed.

(** What a read that lets the transaction continue has done. *)
Lemma tm_read_true shared tx source size target w w' :
  tm_read shared tx source size target w = Some (true, w') →
  ∃ reg p seg t t',
    regions w !! shared = Some reg ∧
    locate (segs w) (contains source) (region.segments reg) = Some (Some p) ∧
    segs w !! p = Some seg ∧ segment.freed seg = false ∧
    txs w !! tx = Some t ∧
    txs w' = <[tx := t']> (txs w) ∧
    transaction.logs t' = transaction.logs t ∧
    transaction.is_ro t' = transaction.is_ro t ∧
    transaction.to_free t' = transaction.to_free t ∧
    bytes w' = memcpy (bytes w) target source size ∧
    regions w' = regions w ∧
    rollbacks (trace w') = rollbacks (trace w).
Proof.
  unfold tm_read. intros H.
  apply bind_inv in H as (reg & ? & Hreg & H).
  apply deref_region_inv in Hreg as [Hreg ->].
  apply bind_inv in H as (r & w1 & Hloop & H).
  rewrite for_first_segment_locate in Hloop.
  destruct (locate (segs w) (contains source) (region.segments reg))
    as [[p|]|] eqn:Hloc; [| |done]; [|minv].
  unfold tm_read_copy in *.
  minv; prims; subst; simpl in *; explode; simplify_map_eq.
  - match goal with
    | Hd : ∀ q, seg_data <$> _ !! q = _, H1 : segs w !! p = Some ?s,
      H2 : _ !! p = Some ?s', H3 : txs w !! tx = Some ?t
      |- context [<[tx := ?v]> (txs w)] =>
        pose proof (Hd p) as Hp; rewrite H1, H2 in Hp; simpl in Hp;
        unfold seg_data in Hp; exists reg, p, s, t, v
    end.
    split_and!; try done. congruence.
  - match goal with
    | H1 : segs w !! p = Some ?s, H3 : txs w !! tx = Some ?t |- _ =>
        exists reg, p, s, t, t
    end.
    split_and!; try done. by rewrite insert_id.
Qed.

(** What a free that lets the transaction continue has done: the lock is
    pushed on [to_free_locks] and the segment is flagged; [to_free] is as it
    was. *)
Lemma tm_free_true shared tx target w w' :
  tm_free shared tx target w = Some (true, w') →
  ∃ reg p t t',
    regions w !! shared = Some reg ∧
    locate (segs w) (λ seg, target =? segment.mem seg) (region.segments reg)
      = Some (Some p) ∧
    txs w !! tx = Some t ∧
    txs w' = <[tx := t']> (txs w) ∧
    t' = transaction.set_to_free_locks (transaction.to_free_locks t ++ [p]) t ∧
    (∃ seg', segs w' !! p = Some seg' ∧ segment.freed seg' = true) ∧
    bytes w' = bytes w ∧
    regions w' = regions w ∧
    rollbacks (trace w') = rollbacks (trace w).
Proof.
  unfold tm_free. intros H.
  apply bind_inv in H as (reg & ? & Hreg & H).
  apply deref_region_inv in Hreg as [Hreg ->].
  apply bind_inv in H as (r & w1 & Hloop & H).
  rewrite for_first_segment_locate in Hloop.
  destruct (locate (segs w) (λ seg, target =? segment.mem seg) (region.segments reg))
    as [[p|]|] eqn:Hloc; [| |done]; [|minv].
  unfold tm_free_mark in *.
  minv; prims; subst; simpl in *; explode; simplify_map_eq;
    match goal with
    | H3 : txs w !! tx = Some ?t |- _ => exists reg, p, t
    end;
    eexists; split_and!; try done;
    eexists; by rewrite lookup_insert_eq.
Qed.

(** Every operation that lets the transaction continue leaves it live and
    read-write as it was; only a write grows the undo log, at its front,
    by the bytes it is about to overwrite. *)
Lemma run_op_true shared tx o w w' t :
  run_op shared tx o w = Some (true, w') →
  txs w !! tx = Some t →
  ∃ t', txs w' !! tx = Some t' ∧
        transaction.is_ro t' = transaction.is_ro t ∧
        transaction.to_free t' = transaction.to_free t ∧
        transaction.logs t' =
          match o with
          | OpWrite source size target _ _ =>
              log.mk size target (load_bytes (bytes w) target (Z.to_nat size))
                :: transaction.logs t
          | _ => transaction.logs t
          end.
Proof.
  destruct o; simpl; intros H Ht.
  - apply tm_read_true in H
      as (reg & p & seg & t0 & t' & _ & _ & _ & _ & ? & Htx & ? & ? & ? & _).
    exists t'. rewrite Htx. simplify_map_eq. done.
  - apply tm_write_true in H
      as (reg & p & seg & t0 & t' & _ & _ & _ & _ & ? & Htx & ? & ? & ? & _).
    exists t'. rewrite Htx. simplify_map_eq. done.
  - apply bind_inv in H as (a & w1 & Ha & H). unfold ret in H. simplify_eq.
    apply tm_alloc_inv in Ha
      as [(_ & -> & _)|(_ & _ & p & m & t0 & _ & _ & ? & Htx & _)].
    + eauto.
    + rewrite Htx. simplify_map_eq. eauto.
  - apply tm_free_true in H
      as (reg & p & t0 & t' & _ & _ & ? & Htx & -> & _).
    rewrite Htx. simplify_map_eq. eauto.
Qed.

(** ** Bytes *)

Lemma load_bytes_length m a n : length (load_bytes m a n) = n.
Proof. unfold load_bytes. by rewrite length_map, length_seq. Qed.

Lemma load_bytes_nth m a n i d :
  (i < n)%nat → nth i (load_bytes m a n) d = m (a + Z.of_nat i).
Proof.
  intros Hi. unfold load_bytes.
  rewrite (nth_indep _ d ((λ i, m (a + Z.of_nat i)) O))
    by (by rewrite length_map, length_seq).
  rewrite (map_nth (λ i, m (a + Z.of_nat i))). by rewrite seq_nth.
Qed.

Lemma store_bytes_out m a bs x :
  ¬ (a <= x < a + Z.of_nat (length bs)) → store_bytes m a bs x = m x.
Proof.
  intros Hx. unfold store_bytes.
  destruct (a <=? x) eqn:E1, (x <? a + Z.of_nat (length bs)) eqn:E2; simpl; try done.
  apply Z.leb_le in E1. apply Z.ltb_lt in E2. lia.
Qed.

Lemma store_bytes_in m a bs x :
  a <= x < a + Z.of_nat (length bs) →
  store_bytes m a bs x = nth (Z.to_nat (x - a)) bs x00.
Proof.
  intros Hx. unfold store_bytes.
  destruct (a <=? x) eqn:E1, (x <? a + Z.of_nat (length bs)) eqn:E2; simpl; try done.
  - apply Z.ltb_ge in E2. lia.
  - apply Z.leb_gt in E1. lia.
  - apply Z.leb_gt in E1. lia.
Qed.

(** Reading back what was just stored. *)
Lemma load_store_bytes m a bs :
  load_bytes (store_bytes m a bs) a (length bs) = bs.
Proof.
  apply (nth_ext _ _ x00 x00); rewrite load_bytes_length; [done|].
  intros i Hi. rewrite load_bytes_nth by done.
  rewrite store_bytes_in by lia. f_equal. lia.
Qed.

Lemma memcpy_out m dst src n x :
  ¬ covers x dst n → memcpy m dst src n x = m x.
Proof.
  intros Hx. unfold memcpy. apply store_bytes_out.
  rewrite load_bytes_length. unfold covers in Hx. lia.
Qed.

(** ** The undo log *)

Lemma restore_out c m a :
  ¬ covers a (log.location c) (log.size c) → restore c m a = m a.
Proof.
  intros Ha. unfold restore. apply store_bytes_out.
  rewrite length_take. unfold covers in Ha. lia.
Qed.

(** The record of a write gives back the byte that the write found. *)
Lemma restore_preimage m0 m size target a :
  covers a target size →
  restore (log.mk size target (load_bytes m0 target (Z.to_nat size))) m a = m0 a.
Proof.
  intros Ha. unfold covers in Ha. unfold restore. simpl.
  rewrite take_ge by (by rewrite load_bytes_length).
  rewrite store_bytes_in by (rewrite load_bytes_length; lia).
  rewrite load_bytes_nth by lia. f_equal. lia.
Qed.

Lemma undo_app l1 l2 m : undo (l1 ++ l2) m = undo l2 (undo l1 m).
Proof. apply fold_left_app. Qed.

Lemma undo_out logs m a :
  Forall (λ c, ¬ covers a (log.location c) (log.size c)) logs →
  undo logs m a = m a.
Proof.
  intros H. revert m. induction H as [|c logs Hc _ IH]; intros m; [done|].
  simpl. rewrite IH. by apply restore_out.
Qed.

(** The undo log after a run of operations: the records of its writes,
    in front of what was there. *)
Lemma run_ops_logs (P : Z → Z → Prop) shared tx ops :
  Forall (λ o, match o with
               | OpWrite _ size target _ _ => P target size
               | _ => True
               end) ops →
  ∀ w w' t,
    run_ops shared tx ops w = Some (true, w') →
    txs w !! tx = Some t →
    ∃ t' new,
      txs w' !! tx = Some t' ∧
      transaction.is_ro t' = transaction.is_ro t ∧
      transaction.to_free t' = transaction.to_free t ∧
      transaction.logs t' = new ++ transaction.logs t ∧
      Forall (λ c, P (log.location c) (log.size c)) new.
Proof.
  induction 1 as [|o ops Ho _ IH]; intros w w' t Hrun Ht; simpl in Hrun.
  - unfold ret in Hrun. simplify_eq. exists t, []. by split_and!.
  - apply bind_inv in Hrun as (go & w1 & Hop & Hrun).
    destruct go; [|by unfold ret in Hrun].
    destruct (run_op_true _ _ _ _ _ _ Hop Ht) as (t1 & Ht1 & Hro1 & Hfr1 & Hlogs1).
    destruct (IH _ _ _ Hrun Ht1) as (t' & new & Ht' & Hro & Hfr & Hlogs & Hnew).
    destruct o; try (exists t', new; split_and!; congruence).
    exists t', (new ++ [log.mk size target (load_bytes (bytes w) target (Z.to_nat size))]).
    split_and!; try congruence.
    + rewrite Hlogs, Hlogs1. by rewrite <- app_assoc.
    + apply Forall_app. split; [done|]. by constructor.
Qed.

Lemma run_op_bytes shared tx o w w' a :
  run_op shared tx o w = Some (true, w') →
  ¬ touches a o → bytes w' a = bytes w a.
Proof.
  destruct o; simpl; intros H Ha.
  - apply tm_read_true in H as (?&?&?&?&?&_&_&_&_&_&_&_&_&_&->&_).
    by apply memcpy_out.
  - apply tm_write_true in H as (?&?&?&?&?&_&_&_&_&_&_&_&_&_&_&->&_).
    by apply memcpy_out.
  - apply bind_inv in H as (r & w1 & Hr & H). unfold ret in H. simplify_eq.
    apply tm_alloc_inv in Hr
      as [(_ & -> & _)|(_ & _ & p & m & t & _ & -> & _ & _ & ->)]; [done|].
    unfold covers in Ha.
    rewrite store_bytes_out by (change (length (pointer_bytes m)) with 8%nat; lia).
    unfold memset0. rewrite store_bytes_out; [done|].
    rewrite repeat_length. lia.
  - by apply tm_free_true in H as (?&?&?&?&_&_&_&_&_&_&->&_).
Qed.

Lemma run_ops_bytes shared tx ops a :
  Forall (λ o, ¬ touches a o) ops →
  ∀ w w', run_ops shared tx ops w = Some (true, w') → bytes w' a = bytes w a.
Proof.
  induction 1 as [|o ops Ho _ IH]; intros w w' Hrun; simpl in Hrun.
  - unfold ret in Hrun. by simplify_eq.
  - apply bind_inv in Hrun as (go & w1 & Hop & Hrun).
    destruct go; [|by unfold ret in Hrun].
    rewrite (IH _ _ Hrun). by eapply run_op_bytes.
Qed.

(** ** The undo log gives back what the writes found *)

(** The transaction of the small region is the one that [tm_begin]
    makes. *)
Lemma tm_begin_fresh :
  tm_begin 1 false (Some 1%positive) (set_txs ∅ ex_w0) = Some (Some 1%positive, ex_w0).
Proof. reflexivity. Qed.

(** C1.  A read-write transaction starts with an empty undo log, runs
    operations that let it continue, and then aborts in an operation that
    returns false.  The abort replays the undo log from its front to its
    back over the bytes the failing operation found, and every address [a]
    that a write of the transaction covered holds again the byte it held
    right before the first such write: [pre] are the operations before
    that write (none of their writes covers [a]), [wk] is the state they
    leave.  When none of them touched [a] at all, that byte is the one the
    transaction began with. *)
Theorem rollback_restores_first_preimage
    shared tx pre source size target new_log malloc_ok post last
    w0 wk w_end w' t0 a :
  txs w0 !! tx = Some t0 →
  transaction.logs t0 = [] →
  transaction.is_ro t0 = false →
  run_ops shared tx pre w0 = Some (true, wk) →
  Forall (λ o, ¬ writes_at a o) pre →
  covers a target size →
  run_ops shared tx (OpWrite source size target new_log malloc_ok :: post) wk
    = Some (true, w_end) →
  run_op shared tx last w_end = Some (false, w') →
  ∃ tk t_end new,
    txs wk !! tx = Some tk ∧
    txs w_end !! tx = Some t_end ∧
    transaction.logs t_end =
      new ++ log.mk size target (load_bytes (bytes wk) target (Z.to_nat size))
          :: transaction.logs tk ∧
    bytes w' = undo (transaction.logs t_end) (bytes w_end) ∧
    bytes w' a = bytes wk a ∧
    (Forall (λ o, ¬ touches a o) pre → bytes w' a = bytes w0 a).
Proof.
  intros Ht0 Hlogs0 Hrw Hpre Hnone Ha Hrun Hlast.
  assert (Forall (λ o, ¬ touches a o) pre → bytes wk a = bytes w0 a) as Hquiet.
  { intros Hpre'. by eapply run_ops_bytes. }
  destruct (run_ops_logs (λ loc sz, ¬ covers a loc sz) shared tx pre) with
    (w := w0) (w' := wk) (t := t0)
    as (tk & newk & Htk & Hrok & _ & Hlogsk & Hnewk); try done.
  { eapply Forall_impl; [exact Hnone|]. by intros []. }
  rewrite Hlogs0, app_nil_r in Hlogsk.
  destruct (run_ops_logs (λ _ _, True) shared tx
              (OpWrite source size target new_log malloc_ok :: post)) with
    (w := wk) (w' := w_end) (t := tk)
    as (t_end & new_end & Ht_end & Hro_end & _ & _ & _); try done.
  { apply Forall_forall. by intros []. }
  simpl in Hrun. apply bind_inv in Hrun as (go & w1 & Hwrite & Hrun).
  destruct go; [|by unfold ret in Hrun].
  destruct (run_op_true shared tx (OpWrite source size target new_log malloc_ok)
              _ _ _ Hwrite Htk) as (t1 & Ht1 & _ & _ & Hlogs1).
  destruct (run_ops_logs (λ _ _, True) shared tx post) with
    (w := w1) (w' := w_end) (t := t1)
    as (t_end' & new & Ht_end' & _ & _ & Hlogs_end & _); try done.
  { apply Forall_forall. by intros []. }
  simplify_eq.
  destruct (run_op_false _ _ _ _ _ Hlast)
    as (wr & u & tr & Hroll & Htr & Hbytes & _ & Hsame).
  destruct (Hsame _ Ht_end) as [Hlogs_r Hro_r].
  apply rollback_inv in Hroll as (tr' & Htr' & _ & _ & Hundo).
  simplify_eq.
  assert (transaction.is_ro tr' = false) as Hrw' by congruence.
  rewrite Hrw', Hlogs_r, Hbytes in Hundo.
  assert (bytes w' a = bytes wk a) as Hres.
  { rewrite Hundo, Hlogs_end, Hlogs1, undo_app. simpl.
    rewrite undo_out by done.
    by apply restore_preimage. }
  exists tk, t_end, new.
  split_and!; [done|done|by rewrite Hlogs_end, Hlogs1|done|done|].
  intros Hpre'. by rewrite Hres, Hquiet.
Qed.

Lemma rollback_restores_first_preimage_witness :
  bytes ex1_w_end 100 = x02 ∧ bytes ex1_wk 100 = x05 ∧ bytes ex1_w' 100 = x05.
Proof.
  split; [reflexivity|]. split; [reflexivity|].
  destruct (rollback_restores_first_preimage 1 1 ex1_pre 1000 8 100 true true
              ex1_post (OpRead 5000 8 2000) ex_w0 ex1_wk ex1_w_end ex1_w'
              ex_tx 100) as (? & ? & ? & _ & _ & _ & _ & H & _).
  - reflexivity.
  - reflexivity.
  - reflexivity.
  - reflexivity.
  - repeat constructor. simpl. tauto.
  - unfold covers. lia.
  - reflexivity.
  - reflexivity.
  - rewrite H. reflexivity.
Defined.

Lemma new_events_app w w' evs :
  trace w' = evs ++ trace w → new_events w w' = evs.
Proof.
  intros H. unfold new_events. rewrite H, length_app.
  replace (length evs + length (trace w) - length (trace w))%nat
    with (length evs) by lia.
  by rewrite take_app_length.
Qed.

Lemma load_store_bytes_n m a bs n :
  length bs = n → load_bytes (store_bytes m a bs) a n = bs.
Proof. intros <-. apply load_store_bytes. Qed.

Lemma contains_data a s s' : seg_data s = seg_data s' → contains a s = contains a s'.
Proof. unfold seg_data, contains. intros H. injection H as -> -> _. done. Qed.

(** A read of a segment whose lock the transaction holds: one call of
    [check_lock], no try-acquire, and the copy. *)
Lemma tm_read_held shared tx source size target w reg p t seg :
  regions w !! shared = Some reg →
  locate (segs w) (contains source) (region.segments reg) = Some (Some p) →
  txs w !! tx = Some t →
  holds_lock t p = true →
  segs w !! p = Some seg →
  segment.freed seg = false →
  tm_read shared tx source size target w =
  Some (true, set_bytes (memcpy (bytes w) target source size)
                (set_trace (EvCheckLock tx p :: trace w) w)).
Proof.
  intros Hreg Hloc Ht Hheld Hseg Hfreed.
  unfold tm_read, bind at 1, deref_region. rewrite Hreg.
  unfold bind at 1. rewrite for_first_segment_locate, Hloc.
  unfold bind, check_lock, bind, emit, modify, deref_tx. simpl.
  rewrite Ht. simpl. rewrite Hheld. simpl.
  unfold tm_read_copy, bind, deref_seg. simpl. by rewrite Hseg, Hfreed.
Qed.

Ltac close_abort :=
  match goal with
  | |- context [bind (rollback ?tx) _ ?W] =>
      exists W; split; [|done];
      unfold bind, ret; by destruct (rollback tx W) as [[[] ?]|]
  end.

(** A read of a flagged segment is a rollback followed by [return false],
    from a state [w1] that differs from the one of the call by the events
    of the lock step and, when the lock was acquired, by the mutex and the
    entry in [read_locks]. *)
Lemma tm_read_tombstoned shared tx source size target w reg p seg t :
  regions w !! shared = Some reg →
  locate (segs w) (contains source) (region.segments reg) = Some (Some p) →
  segs w !! p = Some seg →
  segment.freed seg = true →
  txs w !! tx = Some t →
  ∃ w1, tm_read shared tx source size target w
          = (run rollback tx ;; ret false) w1 ∧
        bytes w1 = bytes w.
Proof.
  intros Hreg Hloc Hseg Hfreed Ht.
  unfold tm_read, bind at 1, deref_region. rewrite Hreg.
  unfold bind at 1. rewrite for_first_segment_locate, Hloc.
  unfold bind at 1 2, check_lock, bind at 1 2, emit, modify, deref_tx. simpl.
  rewrite Ht. unfold ret at 1. simpl.
  destruct (holds_lock t p); simpl.
  - unfold tm_read_copy, bind at 1, deref_seg. simpl. rewrite Hseg, Hfreed.
    close_abort.
  - unfold try_lock_shared, bind at 1 2 3, emit, modify, deref_seg. simpl.
    rewrite Hseg. destruct (writer (segment.lock seg)); simpl.
    + close_abort.
    + unfold bind at 1, update_seg, bind at 1, deref_seg, modify. simpl.
      rewrite Hseg. unfold ret at 1. simpl.
      unfold bind at 1, update_tx, bind at 1, deref_tx, modify. simpl.
      rewrite Ht.
      unfold tm_read_copy, bind at 1, deref_seg. simpl.
      rewrite lookup_insert_eq. simpl. rewrite Hfreed.
      close_abort.
Qed.

(** C7.  A read whose source address is in a segment that carries the
    tombstone does not let the transaction continue, whether the lock was
    held, is acquired now or is refused, and whoever set the flag: the
    read is a rollback of the transaction followed by [return false].
    Nothing is copied to [target]: the bytes after the call are those that
    the rollback makes of the bytes before it (the very same bytes for a
    read-only transaction). *)
Theorem read_tombstoned_aborts shared tx source size target w reg p seg t :
  regions w !! shared = Some reg →
  locate (segs w) (contains source) (region.segments reg) = Some (Some p) →
  segs w !! p = Some seg →
  segment.freed seg = true →
  txs w !! tx = Some t →
  (∃ w1, tm_read shared tx source size target w
           = (run rollback tx ;; ret false) w1 ∧
         bytes w1 = bytes w) ∧
  ∀ r w',
    tm_read shared tx source size target w = Some (r, w') →
    r = false ∧
    rolled_back tx w w' ∧
    bytes w' = undo (if transaction.is_ro t then [] else transaction.logs t) (bytes w).
Proof.
  intros Hreg Hloc Hseg Hfreed Ht. split; [by eapply tm_read_tombstoned|].
  intros r w' Hread. destruct r.
  - apply tm_read_true in Hread
      as (reg' & p' & seg' & _ & _ & Hreg' & Hloc' & Hseg' & Hfreed' & _).
    simplify_eq. congruence.
  - split; [done|]. pose proof (tm_read_false _ _ _ _ _ _ _ Hread) as Hrb.
    split; [done|].
    destruct Hrb as (wr & u & tr & Hroll & Htr & Hbytes & _ & Hsame).
    destruct (Hsame _ Ht) as [Hlogs Hro].
    apply rollback_inv in Hroll as (tr' & Htr' & _ & _ & Hundo).
    simplify_eq. by rewrite Hundo, Hlogs, Hro, Hbytes.
Qed.

Lemma read_tombstoned_aborts_witness :
  tm_read 1 1 200 8 2000 ex3_w = Some (false, ex3_r') ∧
  rolled_back 1 ex3_w ex3_r' ∧
  bytes ex3_r' =
    undo (if transaction.is_ro ex3_t then [] else transaction.logs ex3_t)
      (bytes ex3_w).
Proof.
  split; [reflexivity|].
  eapply (read_tombstoned_aborts 1 1 200 8 2000 ex3_w _ 2 _ ex3_t);
    reflexivity.
Defined.

(** C9.  A write that lets the transaction continue changes the [size]
    bytes from [target] and no other byte of the address space, so every
    byte of every segment outside that range is as it was.  A read that
    lets the transaction continue changes nothing outside its [target]
    buffer: no byte of a segment when that buffer is private. *)
Theorem write_and_read_frame shared tx source size target new_log malloc_ok w w' :
  tm_write shared tx source size target new_log malloc_ok w = Some (true, w')
  ∨ tm_read shared tx source size target w = Some (true, w') →
  bytes w' = memcpy (bytes w) target source size ∧
  (∀ a, ¬ covers a target size → bytes w' a = bytes w a) ∧
  (tm_read shared tx source size target w = Some (true, w') →
   private w target size →
   ∀ a, segment_byte w a → bytes w' a = bytes w a).
Proof.
  intros H.
  assert (bytes w' = memcpy (bytes w) target source size) as Hb.
  { destruct H as [H|H].
    - by apply tm_write_true in H
        as (?&?&?&?&?&_&_&_&_&_&_&_&_&_&_&?&_).
    - by apply tm_read_true in H
        as (?&?&?&?&?&_&_&_&_&_&_&_&_&_&?&_). }
  split; [done|]. rewrite Hb. split.
  - intros a Ha. by apply memcpy_out.
  - intros _ Hpriv a (q & sg & Hq & Ha). apply memcpy_out. by eapply Hpriv.
Qed.

Lemma write_and_read_frame_witness :
  bytes ex2_w1 = memcpy (bytes ex_w0) 100 1000 8 ∧
  (∀ a, ¬ covers a 100 8 → bytes ex2_w1 a = bytes ex_w0 a) ∧
  (tm_read 1 1 1000 8 100 ex_w0 = Some (true, ex2_w1) →
   private ex_w0 100 8 →
   ∀ a, segment_byte ex_w0 a → bytes ex2_w1 a = bytes ex_w0 a).
Proof.
  apply (write_and_read_frame 1 1 1000 8 100 true true ex_w0 ex2_w1).
  left. reflexivity.
Defined.

(** ** Aborts *)





(** C8.  When [new] or [posix_memalign] gives no memory, [tm_alloc]
    answers [nomem] and the world is the one it was called in: no event
    (so no rollback), the transaction with its logs and lock sets and the
    segments of the region as they were, the transaction still live.  The
    region is read (for its alignment) only once the segment struct is
    there. *)
Theorem alloc_nomem_keeps_world shared tx size target new_seg memalign w :
  new_seg = None ∨ (memalign = None ∧ is_Some (regions w !! shared)) →
  tm_alloc shared tx size target new_seg memalign w = Some (nomem, w).
Proof.
  intros [->|[-> [reg Hreg]]]; [done|].
  destruct new_seg as [p|]; [|done].
  unfold tm_alloc, bind, deref_region. by rewrite Hreg.
Qed.

Lemma alloc_nomem_keeps_world_witness :
  tm_alloc 1 1 16 3000 (Some 3%positive) None ex_w0 = Some (nomem, ex_w0) ∧
  tm_end 1 1 ex_w0 <> None.
Proof.
  split.
  - apply (alloc_nomem_keeps_world 1 1 16 3000 (Some 3%positive) None ex_w0).
    right. split; [reflexivity|]. eexists. reflexivity.
  - discriminate.
Defined.

(** C10.  [tm_alloc] never answers [abort]: it answers [nomem] and leaves
    the world alone, or [success]; either way it calls no rollback and the
    transaction, when it was live, still is. *)
Theorem alloc_never_aborts shared tx size target new_seg memalign w a w' :
  tm_alloc shared tx size target new_seg memalign w = Some (a, w') →
  a ≠ abort ∧
  rollbacks (trace w') = rollbacks (trace w) ∧
  (is_Some (txs w !! tx) → is_Some (txs w' !! tx)).
Proof.
  intros H.
  apply tm_alloc_inv in H
    as [(-> & -> & _)|(-> & Htr & p & m & t & _ & _ & Ht & Htx & _)].
  - done.
  - split_and!; [done|by rewrite Htr|]. intros _. rewrite Htx.
    rewrite lookup_insert_eq. eauto.
Qed.

Lemma alloc_never_aborts_witness :
  success ≠ abort ∧
  rollbacks (trace ex10_w') = rollbacks (trace ex_w0) ∧
  (is_Some (txs ex_w0 !! 1%positive) → is_Some (txs ex10_w' !! 1%positive)).
Proof.
  apply (alloc_never_aborts 1 1 16 3000 (Some 3%positive) (Some 400) ex_w0).
  reflexivity.
Defined.

(** ** Who asks for a lock, and when *)

Ltac trace_leaf :=
  prims; subst; simpl in *; explode; simplify_map_eq;
  repeat match goal with
  | H : rollback _ _ = Some _ |- _ =>
      apply rollback_inv in H as (? & ? & ? & _); simpl in *
  end.

Ltac pick_tail tx :=
  first [ exists []; split; [by left|];
          apply new_events_app; simpl; congruence
        | exists [EvRollback tx]; split; [by right|];
          apply new_events_app; simpl; congruence ].

Lemma tm_read_events shared tx source size target w r w' :
  tm_read shared tx source size target w = Some (r, w') →
  (∃ p held, (∀ t, txs w !! tx = Some t → held = holds_lock t p) ∧
     guarded_events tx held p (EvTryLockShared p) (new_events w w'))
  ∨ new_events w w' = [EvRollback tx].
Proof.
  unfold tm_read. intros H.
  apply bind_inv in H as (reg & ? & Hreg & H).
  apply deref_region_inv in Hreg as [Hreg ->].
  apply bind_inv in H as (r' & w1 & Hloop & H).
  rewrite for_first_segment_locate in Hloop.
  destruct (locate (segs w) (contains source) (region.segments reg))
    as [[p|]|] eqn:Hloc; [| |done].
  - left. exists p. unfold guarded_events, tm_read_copy in *.
    minv; trace_leaf;
      match goal with
      | H : negb (holds_lock ?t ?p) = _ |- _ =>
          exists (holds_lock t p); split; [by intros; simplify_eq|];
          destruct (holds_lock t p); try discriminate H
      end;
      pick_tail tx.
  - right. minv. trace_leaf. apply new_events_app. simpl. congruence.
Qed.

Lemma tm_write_events shared tx source size target new_log malloc_ok w r w' :
  tm_write shared tx source size target new_log malloc_ok w = Some (r, w') →
  (∃ p held, (∀ t, txs w !! tx = Some t → held = holds_lock t p) ∧
     guarded_events tx held p (EvTryLock p) (new_events w w'))
  ∨ new_events w w' = [EvRollback tx; EvPrintf not_found_for_write].
Proof.
  unfold tm_write. intros H.
  apply bind_inv in H as (reg & ? & Hreg & H).
  apply deref_region_inv in Hreg as [Hreg ->].
  apply bind_inv in H as (r' & w1 & Hloop & H).
  rewrite for_first_segment_locate in Hloop.
  destruct (locate (segs w) (contains target) (region.segments reg))
    as [[p|]|] eqn:Hloc; [| |done].
  - left. exists p. unfold guarded_events, tm_write_log in *.
    minv; trace_leaf;
      match goal with
      | H : negb (holds_lock ?t ?p) = _ |- _ =>
          exists (holds_lock t p); split; [by intros; simplify_eq|];
          destruct (holds_lock t p); try discriminate H
      end;
      pick_tail tx.
  - right. minv. trace_leaf. apply new_events_app. simpl. congruence.
Qed.

(** The events of a free that found its segment: the try-acquire comes
    first; [check_lock] is called only when it is refused. *)
Lemma tm_free_events shared tx target w r w' reg p :
  regions w !! shared = Some reg →
  locate (segs w) (λ seg, target =? segment.mem seg) (region.segments reg)
    = Some (Some p) →
  tm_free shared tx target w = Some (r, w') →
  ∃ s tail,
    segs w !! p = Some s ∧
    (tail = [] ∨ tail = [EvRollback tx]) ∧
    new_events w w' =
      tail ++ (if lock_is_free (segment.lock s) then [] else [EvCheckLock tx p])
           ++ [EvTryLock p].
Proof.
  unfold tm_free. intros Hreg Hloc H.
  apply bind_inv in H as (reg' & ? & Hreg' & H).
  apply deref_region_inv in Hreg' as [Hreg' ->]. simplify_eq.
  apply bind_inv in H as (r' & w1 & Hloop & H).
  rewrite for_first_segment_locate, Hloc in Hloop.
  unfold tm_free_mark in *.
  minv; trace_leaf;
    match goal with
    | H : segs w !! p = Some ?s |- _ => exists s
    end;
    match goal with
    | H : negb ?b = _ |- context [if ?b then _ else _] =>
        destruct b; try discriminate H
    end;
    first [ exists []; split; [done|]; split; [by left|];
            apply new_events_app; simpl; congruence
          | exists [EvRollback tx]; split; [done|]; split; [by right|];
            apply new_events_app; simpl; congruence ].
Qed.

Lemma guarded_no_acquire tx held p try evs l :
  guarded_events tx held p try evs →
  try = EvTryLock p ∨ try = EvTryLockShared p →
  (l = p → held = true) →
  (EvTryLock l ∉ evs) ∧ (EvTryLockShared l ∉ evs).
Proof.
  intros (tail & Htail & ->) Htry Hheld.
  destruct (decide (l = p)) as [->|Hne].
  - rewrite Hheld by done.
    destruct Htail as [-> | ->]; simpl;
      split; intros Hin; repeat (apply elem_of_cons in Hin as [Hin|Hin]; try done);
      by apply elem_of_nil in Hin.
  - destruct Htail as [-> | ->], held, Htry as [-> | ->]; simpl;
      split; intros Hin;
      repeat (apply elem_of_cons in Hin as [Hin|Hin]; try congruence);
      by apply elem_of_nil in Hin.
Qed.

Lemma guarded_check_first tx held p try evs newer e older l :
  guarded_events tx held p try evs →
  try = EvTryLock p ∨ try = EvTryLockShared p →
  evs = newer ++ e :: older →
  e = EvTryLock l ∨ e = EvTryLockShared l →
  EvCheckLock tx l ∈ older.
Proof.
  intros (tail & Htail & ->) Htry Hsplit He.
  destruct Htail as [-> | ->], held, Htry as [-> | ->]; simpl in Hsplit;
    destruct newer as [|? [|? [|? ?]]]; simplify_eq/=;
    destruct He; simplify_eq; try (by apply list_elem_of_singleton);
    match goal with
    | H : [] = ?l0 ++ _ :: _ |- _ => by destruct l0
    end.
Qed.

Lemma existsb_eqb_elem (l : positive) (L : list positive) :
  existsb (Pos.eqb l) L = true ↔ l ∈ L.
Proof.
  rewrite existsb_exists, list_elem_of_In. split.
  - intros (x & Hx & Heq). apply Pos.eqb_eq in Heq. by subst.
  - intros H. exists l. split; [done|]. apply Pos.eqb_refl.
Qed.

(** C6, as the code has it.  [tm_read] and [tm_write] call [check_lock]
    before any try-acquire and ask for no lock that the transaction holds.
    [tm_free] asks first: on the segment it found, [try_lock] is the first
    call, whether the transaction holds the lock or not, and [check_lock]
    is called only when the mutex was not free.  [check_lock] answers true
    exactly for the locks in [locks], [read_locks], [new_seg_locks] or
    [to_free_locks]. *)
Theorem lock_discipline shared tx :
  (∀ source size target,
     asks_only_when_not_held tx (tm_read shared tx source size target) ∧
     checks_before_acquiring tx (tm_read shared tx source size target)) ∧
  (∀ source size target new_log malloc_ok,
     asks_only_when_not_held tx
       (tm_write shared tx source size target new_log malloc_ok) ∧
     checks_before_acquiring tx
       (tm_write shared tx source size target new_log malloc_ok)) ∧
  (∀ target w r w' reg p,
     regions w !! shared = Some reg →
     locate (segs w) (λ seg, target =? segment.mem seg) (region.segments reg)
       = Some (Some p) →
     tm_free shared tx target w = Some (r, w') →
     ∃ s tail,
       segs w !! p = Some s ∧
       (tail = [] ∨ tail = [EvRollback tx]) ∧
       new_events w w' =
         tail ++ (if lock_is_free (segment.lock s) then []
                  else [EvCheckLock tx p])
              ++ [EvTryLock p]) ∧
  (∀ l w b w' t,
     txs w !! tx = Some t →
     check_lock tx l w = Some (b, w') →
     b = true ↔
     l ∈ transaction.locks t ∨ l ∈ transaction.read_locks t ∨
     l ∈ transaction.new_seg_locks t ∨ l ∈ transaction.to_free_locks t).
Proof.
  split_and!.
  - intros source size target. split.
    + intros w r w' t l Ht Hheld Hrun.
      apply tm_read_events in Hrun as [(p & held & Hh & Hev)|Hev].
      * eapply guarded_no_acquire; [done|by right|].
        intros ->. by rewrite (Hh _ Ht).
      * rewrite Hev. split; intros Hin;
          apply list_elem_of_singleton in Hin; done.
    + intros w r w' newer e older l Hrun Hsplit He.
      apply tm_read_events in Hrun as [(p & held & Hh & Hev)|Hev].
      * eapply guarded_check_first; [done|by right|done|done].
      * rewrite Hev in Hsplit.
        destruct newer as [|? [|? ?]]; simplify_eq/=; by destruct He.
  - intros source size target new_log malloc_ok. split.
    + intros w r w' t l Ht Hheld Hrun.
      apply tm_write_events in Hrun as [(p & held & Hh & Hev)|Hev].
      * eapply guarded_no_acquire; [done|by left|].
        intros ->. by rewrite (Hh _ Ht).
      * rewrite Hev. split; intros Hin;
          repeat (apply elem_of_cons in Hin as [Hin|Hin]; try done);
          by apply elem_of_nil in Hin.
    + intros w r w' newer e older l Hrun Hsplit He.
      apply tm_write_events in Hrun as [(p & held & Hh & Hev)|Hev].
      * eapply guarded_check_first; [done|by left|done|done].
      * rewrite Hev in Hsplit.
        destruct newer as [|? [|? [|? ?]]]; simplify_eq/=; by destruct He.
  - intros target w r w' reg p Hreg Hloc Hrun. by eapply tm_free_events.
  - intros l w b w' t Ht Hrun.
    apply check_lock_inv in Hrun as (t' & Ht' & -> & _). simplify_eq.
    unfold holds_lock. rewrite !orb_true_iff, !existsb_eqb_elem. tauto.
Qed.

(** C6, as the specification words it, fails on [tm_free]: the transaction holds
    the lock of the second segment, and [tm_free] asks for it all the
    same, before it calls [check_lock]. *)
Lemma free_acquires_before_checking :
  holds_lock ex6_t 2 = true ∧
  new_events ex6_w ex6_w' = [EvCheckLock 1 2; EvTryLock 2] ∧
  ¬ asks_only_when_not_held 1 (tm_free 1 1 200) ∧
  ¬ checks_before_acquiring 1 (tm_free 1 1 200).
Proof.
  split; [reflexivity|]. split; [reflexivity|]. split.
  - intros H.
    destruct (H ex6_w true ex6_w' ex6_t 2%positive) as [Hno _];
      [reflexivity..|].
    apply Hno. change (new_events ex6_w ex6_w') with [EvCheckLock 1 2; EvTryLock 2].
    apply elem_of_cons. right. by apply list_elem_of_singleton.
  - intros H.
    specialize (H ex6_w true ex6_w' [EvCheckLock 1 2] (EvTryLock 2) [] 2%positive).
    apply elem_of_nil in H; [done|reflexivity|reflexivity|by left].
Qed.

Lemma lock_discipline_witness :
  (EvTryLock 2 ∉ new_events ex6_w (after (tm_read 1 1 200 8 2000) ex6_w)) ∧
  ∃ s tail,
    segs ex6_w !! 2%positive = Some s ∧
    (tail = [] ∨ tail = [EvRollback 1]) ∧
    new_events ex6_w ex6_w' =
      tail ++ (if lock_is_free (segment.lock s) then [] else [EvCheckLock 1 2])
           ++ [EvTryLock 2].
Proof.
  destruct (lock_discipline 1 1) as (Hread & _ & Hfree & _). split.
  - destruct (Hread 200 8 2000) as [Hasks _].
    destruct (Hasks ex6_w true (after (tm_read 1 1 200 8 2000) ex6_w)
                ex6_t 2%positive) as [Hno _]; [reflexivity..|].
    exact Hno.
  - eapply (Hfree 200 ex6_w true ex6_w'); reflexivity.
Defined.

(** ** Where the code leaves the specification *)

(** What a read and a write record: nothing when [check_lock] finds the
    lock, the lock at the back of [read_locks] or of [locks] when it was
    acquired now. *)
Lemma tm_read_records shared tx source size target w w' t :
  tm_read shared tx source size target w = Some (true, w') →
  txs w !! tx = Some t →
  ∃ p, (holds_lock t p = true ∧ txs w' !! tx = Some t) ∨
       (holds_lock t p = false ∧
        txs w' !! tx = Some (transaction.set_read_locks
                               (transaction.read_locks t ++ [p]) t)).
Proof.
  unfold tm_read. intros H Ht.
  apply bind_inv in H as (reg & ? & Hreg & H).
  apply deref_region_inv in Hreg as [Hreg ->].
  apply bind_inv in H as (r & w1 & Hloop & H).
  rewrite for_first_segment_locate in Hloop.
  destruct (locate (segs w) (contains source) (region.segments reg))
    as [[p|]|] eqn:Hloc; [| |done]; [|minv].
  unfold tm_read_copy in *. exists p.
  minv; prims; subst; simpl in *; explode; simplify_map_eq;
    match goal with
    | H : negb (holds_lock ?t ?p) = _ |- _ =>
        destruct (holds_lock t p); try discriminate H
    end.
  - by right.
  - by left.
Qed.

Lemma tm_write_records shared tx source size target new_log malloc_ok w w' t :
  tm_write shared tx source size target new_log malloc_ok w = Some (true, w') →
  txs w !! tx = Some t →
  ∃ p c, (holds_lock t p = true ∧
          txs w' !! tx = Some (transaction.set_logs (c :: transaction.logs t) t)) ∨
         (holds_lock t p = false ∧
          txs w' !! tx = Some (transaction.set_logs (c :: transaction.logs t)
                                 (transaction.set_locks
                                    (transaction.locks t ++ [p]) t))).
Proof.
  unfold tm_write. intros H Ht.
  apply bind_inv in H as (reg & ? & Hreg & H).
  apply deref_region_inv in Hreg as [Hreg ->].
  apply bind_inv in H as (r & w1 & Hloop & H).
  rewrite for_first_segment_locate in Hloop.
  destruct (locate (segs w) (contains target) (region.segments reg))
    as [[p|]|] eqn:Hloc; [| |done]; [|minv].
  unfold tm_write_log in *. exists p. eexists.
  minv; prims; subst; simpl in *; explode; simplify_map_eq;
    match goal with
    | H : negb (holds_lock ?t ?p) = _ |- _ =>
        destruct (holds_lock t p); try discriminate H
    end.
  - right. split; [done|]. by simplify_map_eq.
  - left. split; [done|]. by simplify_map_eq.
Qed.

Lemma holds_lock_recorded t p : holds_lock t p = true ↔ p ∈ recorded t.
Proof.
  unfold holds_lock, recorded.
  rewrite !orb_true_iff, !existsb_eqb_elem, !elem_of_app. tauto.
Qed.

(** A read and a write keep every lock of the transaction recorded at
    most once: they record a lock only when [check_lock] did not find
    it. *)
Lemma read_write_record_once shared tx source size target new_log malloc_ok w w' t :
  tm_read shared tx source size target w = Some (true, w')
  ∨ tm_write shared tx source size target new_log malloc_ok w = Some (true, w') →
  txs w !! tx = Some t →
  NoDup (recorded t) →
  ∃ t', txs w' !! tx = Some t' ∧ NoDup (recorded t').
Proof.
  intros H Ht Hnd.
  assert (∀ p, holds_lock t p = false → p ∉ recorded t) as Hfresh.
  { intros p Hp Hin. apply holds_lock_recorded in Hin. congruence. }
  destruct H as [H|H].
  - destruct (tm_read_records _ _ _ _ _ _ _ _ H Ht) as (p & [[_ Ht']|[Hp Ht']]);
      eexists; (split; [exact Ht'|]); [done|].
    unfold recorded. simpl.
    rewrite <- (app_assoc _ [p]). simpl.
    rewrite app_assoc. apply NoDup_app. unfold recorded in *.
    rewrite app_assoc in Hnd. apply NoDup_app in Hnd as (Hl & Hd & Hr).
    split_and!; [done| |].
    + intros x Hx Hin. apply elem_of_cons in Hin as [->|Hin]; [|by eapply Hd].
      eapply Hfresh; [done|]. unfold recorded. rewrite app_assoc.
      apply elem_of_app. by left.
    + apply NoDup_cons. split; [|done]. intros Hin. eapply Hfresh; [done|].
      unfold recorded. rewrite app_assoc. apply elem_of_app. by right.
  - destruct (tm_write_records _ _ _ _ _ _ _ _ _ _ H Ht)
      as (p & c & [[_ Ht']|[Hp Ht']]);
      eexists; (split; [exact Ht'|]); [done|].
    unfold recorded. simpl.
    rewrite <- (app_assoc _ [p]). simpl.
    apply NoDup_app. unfold recorded in *.
    apply NoDup_app in Hnd as (Hl & Hd & Hr).
    split_and!; [done| |].
    + intros x Hx Hin. apply elem_of_cons in Hin as [->|Hin]; [|by eapply Hd].
      eapply Hfresh; [done|]. unfold recorded. apply elem_of_app. by left.
    + apply NoDup_cons. split; [|done]. intros Hin. eapply Hfresh; [done|].
      unfold recorded. apply elem_of_app. by right.
Qed.

(** A free pushes the lock on [to_free_locks] whether it was acquired now
    or held before. *)
Lemma tm_free_counts_again shared tx target w w' t :
  txs w !! tx = Some t →
  tm_free shared tx target w = Some (true, w') →
  ∃ p t', txs w' !! tx = Some t' ∧ lock_count t' p = S (lock_count t p).
Proof.
  intros Ht H.
  apply tm_free_true in H as (reg & p & t0 & t' & _ & _ & Ht0 & Htx & -> & _).
  simplify_eq. exists p. eexists. rewrite Htx, lookup_insert_eq. split; [done|].
  unfold lock_count, recorded. simpl. rewrite !app_assoc, count_occ_app. simpl.
  destruct (Pos.eq_dec p p); [lia|done].
Qed.

(** C5, at the input where it fails.  The transaction writes to the second
    segment, which puts the lock of that segment in [locks], and then frees
    the segment: the lock is pushed on [to_free_locks] too, so it is
    recorded twice, and the rollback of this transaction, which unlocks
    every entry of both vectors, would unlock it twice. *)
Theorem free_after_write_records_lock_twice :
  tm_write 1 1 1000 8 200 true true ex_w0 = Some (true, ex6_w) ∧
  tm_free 1 1 200 ex6_w = Some (true, ex6_w') ∧
  ∃ t, txs ex6_w' !! 1%positive = Some t ∧
       transaction.locks t = [2%positive] ∧
       transaction.to_free_locks t = [2%positive] ∧
       lock_count t 2 = 2%nat ∧
       rollback 1 ex6_w' = None.
Proof.
  split; [reflexivity|]. split; [reflexivity|].
  eexists. split; [reflexivity|]. by split_and!.
Qed.

(** [tm_end] with an empty [to_free] deletes no segment and erases
    nothing from the region. *)
Lemma tm_end_keeps_segments shared tx w b w' t :
  txs w !! tx = Some t →
  transaction.to_free t = [] →
  tm_end shared tx w = Some (b, w') →
  regions w' = regions w ∧
  ∀ q, seg_data <$> segs w' !! q = seg_data <$> segs w !! q.
Proof.
  unfold tm_end. intros Ht Hfree Hrun.
  apply bind_inv in Hrun as (t' & ? & Ht' & Hrun).
  apply deref_tx_inv in Ht' as [Ht' ->]. simplify_eq.
  apply bind_inv in Hrun as (? & w1 & Hshared & Hrun).
  apply (for_each_keeps relocked) in Hshared as (_ & Hr1 & Hd1);
    [|intros ?????; by eapply unlock_shared_relocked].
  apply bind_inv in Hrun as (? & w2 & Hrw & Hrun).
  assert (relocked w1 w2) as (_ & Hr2 & Hd2).
  { destruct (transaction.is_ro t); simpl in Hrw.
    - unfold ret in Hrw. by simplify_eq.
    - rewrite Hfree in Hrw. simpl in Hrw.
      apply bind_inv in Hrw as (? & wa & Ha & Hrw).
      unfold free_segments in Ha. simpl in Ha. unfold ret in Ha. simplify_eq.
      apply bind_inv in Hrw as (? & wb & Hb & Hrw).
      apply (for_each_keeps relocked) in Hb;
        [|intros ?????; by eapply unlock_relocked].
      apply (for_each_keeps relocked) in Hrw;
        [|intros ?????; by eapply unlock_relocked].
      by transitivity wb. }
  clear Hrw. minv. simpl. split; [congruence|]. intros q. by rewrite Hd2, Hd1.
Qed.

(** No operation puts a segment in [to_free], so no commit of a
    transaction that began with [tm_begin] deletes a segment. *)
Lemma commit_deletes_no_segment shared tx ops w0 w b w' t0 :
  txs w0 !! tx = Some t0 →
  transaction.to_free t0 = [] →
  run_ops shared tx ops w0 = Some (true, w) →
  tm_end shared tx w = Some (b, w') →
  regions w' = regions w ∧
  ∀ q, seg_data <$> segs w' !! q = seg_data <$> segs w !! q.
Proof.
  intros Ht0 Hfree Hrun Hend.
  destruct (run_ops_logs (λ _ _, True) shared tx ops) with
    (w := w0) (w' := w) (t := t0) as (t & _ & Ht & _ & Hfree' & _); try done.
  { apply Forall_forall. by intros []. }
  eapply tm_end_keeps_segments; [done| |done]. congruence.
Qed.

(** C3, at the input where it fails.  The transaction frees the second
    segment and commits.  The free flags the segment and records its lock
    in [to_free_locks], but puts nothing in [to_free]; the commit deletes
    the segments of [to_free], so none: the segment is still in the region
    and in the store, flagged and locked, and an address of it is still
    located there. *)
Theorem freed_segment_survives_commit :
  tm_free 1 1 200 ex_w0 = Some (true, ex3_w) ∧
  (∃ t, txs ex3_w !! 1%positive = Some t ∧
        transaction.to_free t = [] ∧
        transaction.to_free_locks t = [2%positive]) ∧
  segs ex3_w !! 2%positive = Some (segment.mk (Mutex true 0) 200 8 true) ∧
  tm_end 1 1 ex3_w = Some (true, ex3_w') ∧
  regions ex3_w' !! 1%positive = Some (region.mk 100 [1%positive; 2%positive] 16 8) ∧
  segs ex3_w' !! 2%positive = Some (segment.mk (Mutex true 0) 200 8 true) ∧
  locate (segs ex3_w') (contains 200) [1%positive; 2%positive] = Some (Some 2%positive).
Proof.
  split; [reflexivity|]. split; [eexists; by split_and!|]. by split_and!.
Qed.


(** ** Tactics that run the code forward *)

Ltac fwd_step :=
  first
    [ rewrite lookup_insert_eq
    | rewrite lookup_insert_ne by done
    | rewrite lookup_delete_ne by done
    | match goal with
      | H : ?m !! ?k = Some _ |- context [?m !! ?k] => rewrite H
      | H : holds_lock ?t ?p = _ |- context [holds_lock ?t ?p] => rewrite H
      | H : writer ?l = _ |- context [writer ?l] => rewrite H
      | H : lock_is_free ?l = _ |- context [lock_is_free ?l] => rewrite H
      | H : segment.freed ?s = _ |- context [segment.freed ?s] => rewrite H
      end ];
  simpl.

Ltac fwd_unfold :=
  unfold tm_read_copy, tm_write_log, tm_free_mark, free_segments, free_segment,
    check_lock, try_lock, try_lock_shared, unlock, unlock_shared,
    update_tx, update_seg, update_region, delete_tx, delete_seg,
    deref_tx, deref_seg, deref_region, emit, modify, get, bind, ret;
  simpl.

Ltac fwd := fwd_unfold; repeat (first [fwd_step | progress fwd_unfold]).

Ltac enter_loop Hreg Hloc :=
  unfold bind at 1, deref_region; rewrite Hreg;
  unfold bind at 1; rewrite for_first_segment_locate, Hloc.

(** ** Regions *)

Lemma memset0_in m dst n a : covers a dst n → memset0 m dst n a = x00.
Proof.
  intros Ha. unfold covers in Ha. unfold memset0.
  rewrite store_bytes_in by (rewrite repeat_length; lia).
  apply nth_repeat.
Qed.

Lemma memset0_out m dst n a : ¬ covers a dst n → memset0 m dst n a = m a.
Proof.
  intros Ha. unfold covers in Ha. unfold memset0.
  apply store_bytes_out. rewrite repeat_length. lia.
Qed.

(** What a [tm_create] that gets its three allocations does. *)
Lemma tm_create_success size align reg seg start w :
  ∃ w',
    tm_create size align (Some reg) (Some seg) (Some start) w = Some (Some reg, w') ∧
    regions w' = <[reg := region.mk start [seg] size align]> (regions w) ∧
    segs w' = <[seg := segment.mk unlocked start size false]> (segs w) ∧
    bytes w' = memset0 (bytes w) start size ∧
    txs w' = txs w ∧ trace w' = trace w.
Proof.
  eexists. split.
  - unfold tm_create. fwd. reflexivity.
  - simpl. by rewrite !insert_insert_eq.
Qed.

(** X1.  A [tm_create] that gets its three allocations answers the handle
    of a region whose only segment is the new one: unlocked, not flagged,
    [size] bytes at the address of the buffer, all zero; the three queries
    answer that address, [size] and [align]; no byte outside the buffer
    moved and no transaction was touched. *)
Theorem tm_create_publishes size align reg seg start w :
  ∃ w',
    tm_create size align (Some reg) (Some seg) (Some start) w = Some (Some reg, w') ∧
    tm_start reg w' = Some (start, w') ∧
    tm_size reg w' = Some (size, w') ∧
    tm_align reg w' = Some (align, w') ∧
    regions w' !! reg = Some (region.mk start [seg] size align) ∧
    segs w' !! seg = Some (segment.mk unlocked start size false) ∧
    (∀ a, covers a start size → bytes w' a = x00) ∧
    (∀ a, ¬ covers a start size → bytes w' a = bytes w a) ∧
    txs w' = txs w ∧ trace w' = trace w.
Proof.
  destruct (tm_create_success size align reg seg start w)
    as (w' & Hrun & Hr & Hs & Hb & Ht & Htr).
  exists w'. split; [done|].
  unfold tm_start, tm_size, tm_align, bind, deref_region.
  rewrite Hr, Hs, Hb, !lookup_insert_eq. simpl. split_and!; try done.
  - intros a Ha. by apply memset0_in.
  - intros a Ha. by apply memset0_out.
Qed.

(** X2.  A [tm_create] that misses one of its three allocations answers
    the invalid handle and has deleted what it had allocated before: where
    the allocator gave fresh addresses, the world is the one that the call
    found, with no region and no segment left behind. *)
Theorem tm_create_fails_clean size align new_region new_seg memalign w :
  (∀ reg, new_region = Some reg → regions w !! reg = None) →
  (∀ seg, new_seg = Some seg → segs w !! seg = None) →
  new_region = None ∨ new_seg = None ∨ memalign = None →
  tm_create size align new_region new_seg memalign w = Some (None, w).
Proof.
  intros Hreg Hseg Hfail. unfold tm_create.
  destruct new_region as [reg|]; [|done].
  specialize (Hreg reg eq_refl).
  destruct new_seg as [seg|].
  - specialize (Hseg seg eq_refl).
    destruct memalign as [start|]; [by destruct Hfail as [?|[?|?]]|].
    unfold delete_region. fwd.
    rewrite !delete_insert_id by done. by destruct w.
  - unfold delete_region. fwd.
    rewrite delete_insert_id by done. by destruct w.
Qed.

Lemma tm_create_fails_clean_witness :
  tm_create 16 8 (Some 2%positive) (Some 3%positive) None ex_w0
    = Some (None, ex_w0).
Proof.
  apply (tm_create_fails_clean 16 8 (Some 2%positive) (Some 3%positive) None ex_w0).
  - intros reg [= <-]. reflexivity.
  - intros seg [= <-]. reflexivity.
  - right. right. reflexivity.
Defined.

Lemma delete_segs_inv l :
  ∀ w u w', for_each l delete_seg w = Some (u, w') →
  quiet w w' ∧ regions w' = regions w ∧
  ∀ q, segs w' !! q = if decide (q ∈ l) then None else segs w !! q.
Proof.
  induction l as [|p l IH]; intros w u w' H; simpl in H.
  - unfold ret in H. simplify_eq. by split_and!.
  - apply bind_inv in H as (? & w1 & Hp & H).
    apply IH in H as ((Hb & Ht & Htr) & Hr & Hs).
    unfold delete_seg in Hp. minv. simpl in *.
    split_and!; try done. intros q. rewrite Hs.
    destruct (decide (q = p)) as [->|Hne].
    + rewrite lookup_delete_eq. rewrite (decide_True (P := p ∈ p :: l)).
      * by destruct (decide (p ∈ l)).
      * apply list_elem_of_here.
    + rewrite lookup_delete_ne by done.
      destruct (decide (q ∈ l)) as [Hin|Hout].
      * rewrite decide_True; [done|]. by apply list_elem_of_further.
      * rewrite decide_False; [done|]. intros Hin.
        apply elem_of_cons in Hin as [?|?]; done.
Qed.

(** X3.  [tm_destroy] deletes the region and every segment in its vector,
    and nothing else: the other segments, the bytes and the transactions
    are as they were. *)
Theorem tm_destroy_frees shared w u w' :
  tm_destroy shared w = Some (u, w') →
  ∃ reg,
    regions w !! shared = Some reg ∧
    regions w' = delete shared (regions w) ∧
    (∀ q, segs w' !! q
          = if decide (q ∈ region.segments reg) then None else segs w !! q) ∧
    bytes w' = bytes w ∧ txs w' = txs w ∧ trace w' = trace w.
Proof.
  unfold tm_destroy. intros H.
  apply bind_inv in H as (reg & ? & Hreg & H).
  apply deref_region_inv in Hreg as [Hreg ->].
  apply bind_inv in H as (? & w1 & Hsegs & H).
  apply delete_segs_inv in Hsegs as ((Hb & Ht & Htr) & Hr & Hs).
  unfold modify in H. simplify_eq. exists reg. simpl.
  split_and!; try done. by rewrite Hr.
Qed.

Lemma tm_destroy_frees_witness :
  ∃ reg,
    regions ex_w0 !! 1%positive = Some reg ∧
    regions (after (tm_destroy 1) ex_w0) = delete 1%positive (regions ex_w0) ∧
    (∀ q, segs (after (tm_destroy 1) ex_w0) !! q
          = if decide (q ∈ region.segments reg) then None else segs ex_w0 !! q) ∧
    bytes (after (tm_destroy 1) ex_w0) = bytes ex_w0 ∧
    txs (after (tm_destroy 1) ex_w0) = txs ex_w0 ∧
    trace (after (tm_destroy 1) ex_w0) = trace ex_w0.
Proof.
  apply (tm_destroy_frees 1 ex_w0 tt (after (tm_destroy 1) ex_w0)).
  reflexivity.
Defined.

(** X4.  A region that is created at fresh addresses and destroyed leaves
    no region and no segment behind: the stores are those of before. *)
Theorem tm_create_destroy size align reg seg start w :
  regions w !! reg = None →
  segs w !! seg = None →
  ∃ w1 w2,
    tm_create size align (Some reg) (Some seg) (Some start) w = Some (Some reg, w1) ∧
    tm_destroy reg w1 = Some (tt, w2) ∧
    regions w2 = regions w ∧ segs w2 = segs w ∧ txs w2 = txs w.
Proof.
  intros Hreg Hseg.
  destruct (tm_create_success size align reg seg start w)
    as (w1 & Hcreate & Hr1 & Hs1 & _ & Ht1 & _).
  exists w1. eexists. split; [done|].
  unfold tm_destroy, bind, deref_region. rewrite Hr1, lookup_insert_eq. simpl.
  unfold bind, delete_seg, bind, deref_seg. rewrite Hs1, lookup_insert_eq.
  simpl. split; [reflexivity|]. simpl.
  by rewrite Hr1, Hs1, !delete_insert_id.
Qed.

Lemma tm_create_destroy_witness :
  ∃ w1 w2,
    tm_create 16 8 (Some 2%positive) (Some 3%positive) (Some 400) ex_w0
      = Some (Some 2%positive, w1) ∧
    tm_destroy 2 w1 = Some (tt, w2) ∧
    regions w2 = regions ex_w0 ∧ segs w2 = segs ex_w0 ∧ txs w2 = txs ex_w0.
Proof.
  apply (tm_create_destroy 16 8 2%positive 3%positive 400 ex_w0); reflexivity.
Defined.


#[local] Instance region_stable_preorder : PreOrder region_stable.
Proof.
  split.
  - by intros w q.
  - intros w1 w2 w3 H1 H2 q. by rewrite H2, H1.
Qed.

Lemma relocked_region_stable w w' : relocked w w' → region_stable w w'.
Proof. intros (_ & Hr & _) q. by rewrite Hr. Qed.

Lemma free_segments_region_stable tx l w u w' :
  free_segments tx l w = Some (u, w') → region_stable w w'.
Proof.
  apply for_each_keeps; [apply _|]. clear. intros p w u w' H.
  unfold free_segment in H. minv; simpl; [|done].
  intros q. simpl.
  match goal with
  | H : regions w !! ?r = Some ?x |- _ =>
      destruct (decide (r = q)) as [Heq|Hne];
      [rewrite Heq in *; rewrite lookup_insert_eq, H
      |rewrite lookup_insert_ne by done]; done
  end.
Qed.

Lemma rollback_region_stable tx w u w' :
  rollback tx w = Some (u, w') → region_stable w w'.
Proof.
  unfold rollback. intros Hrun.
  apply bind_inv in Hrun as (? & w1 & Hemit & Hrun).
  unfold emit, modify in Hemit. simplify_eq.
  apply bind_inv in Hrun as (t & ? & Ht & Hrun).
  apply deref_tx_inv in Ht as [Ht ->].
  apply bind_inv in Hrun as (? & w2 & Hrw & Hrun).
  apply bind_inv in Hrun as (? & w3 & Hshared & Hrun).
  apply (for_each_keeps relocked) in Hshared;
    [|intros ?????; by eapply unlock_shared_relocked].
  apply relocked_region_stable in Hshared.
  assert (region_stable w w2) as Hw2.
  { destruct (transaction.is_ro t); simpl in Hrw.
    - unfold ret in Hrw. by simplify_eq.
    - apply bind_inv in Hrw as (? & wa & Hlogs & Hrw).
      rewrite for_each_restore in Hlogs. simplify_eq.
      apply bind_inv in Hrw as (? & wb & Hfree & Hrw).
      apply bind_inv in Hrw as (? & wc & Hallocs & Hrw).
      apply bind_inv in Hrw as (? & wd & Hlocks & Hrw).
      apply (for_each_keeps region_stable) in Hfree;
        [|clear; intros p w u w' H; minv; done].
      apply free_segments_region_stable in Hallocs.
      apply (for_each_keeps relocked) in Hlocks;
        [|intros ?????; by eapply unlock_relocked].
      apply (for_each_keeps relocked) in Hrw;
        [|intros ?????; by eapply unlock_relocked].
      apply relocked_region_stable in Hlocks, Hrw.
      intros q. rewrite (Hrw q), (Hlocks q), (Hallocs q), (Hfree q). done. }
  clear Hrw. minv. intros q. simpl. by rewrite (Hshared q), (Hw2 q).
Qed.

Lemma tm_end_inv shared tx w b w' :
  tm_end shared tx w = Some (b, w') →
  b = true ∧ bytes w' = bytes w ∧ trace w' = trace w ∧
  txs w' = delete tx (txs w) ∧ region_stable w w'.
Proof.
  unfold tm_end. intros Hrun.
  apply bind_inv in Hrun as (t & ? & Ht & Hrun).
  apply deref_tx_inv in Ht as [Ht ->].
  apply bind_inv in Hrun as (? & w1 & Hshared & Hrun).
  apply (for_each_keeps relocked) in Hshared as ((?&?&?)&Hr1&_);
    [|intros ?????; by eapply unlock_shared_relocked].
  apply bind_inv in Hrun as (? & w2 & Hrw & Hrun).
  assert (quiet w1 w2 ∧ region_stable w1 w2) as ((?&?&?) & Hs2).
  { destruct (transaction.is_ro t); simpl in Hrw.
    - unfold ret in Hrw. by simplify_eq.
    - apply bind_inv in Hrw as (? & wa & Ha & Hrw).
      apply bind_inv in Hrw as (? & wb & Hb & Hrw).
      pose proof (free_segments_region_stable _ _ _ _ _ Ha) as Hsa.
      apply free_segments_quiet in Ha.
      apply (for_each_keeps relocked) in Hb;
        [|intros ?????; by eapply unlock_relocked].
      apply (for_each_keeps relocked) in Hrw;
        [|intros ?????; by eapply unlock_relocked].
      split.
      + transitivity wa; [done|]. transitivity wb; [apply Hb|apply Hrw].
      + transitivity wa; [done|].
        transitivity wb; by apply relocked_region_stable. }
  clear Hrw. minv. simpl. split_and!; try congruence.
  intros q. simpl. by rewrite (Hs2 q), Hr1.
Qed.

(** X5.  A commit never fails and never rolls back: [tm_end] answers
    true, calls no helper that leaves an event, leaves every byte as the
    transaction made it, and the handle points to nothing afterwards. *)
Theorem commit_keeps_the_bytes shared tx w b w' :
  tm_end shared tx w = Some (b, w') →
  b = true ∧ bytes w' = bytes w ∧ new_events w w' = [] ∧ txs w' !! tx = None.
Proof.
  intros H. apply tm_end_inv in H as (-> & Hb & Htr & Htx & _).
  split_and!; try done.
  - apply new_events_app. by rewrite Htr.
  - rewrite Htx. apply lookup_delete_eq.
Qed.

Lemma commit_keeps_the_bytes_witness :
  true = true ∧ bytes (after (tm_end 1 1) ex2_w1) = bytes ex2_w1 ∧
  new_events ex2_w1 (after (tm_end 1 1) ex2_w1) = [] ∧
  txs (after (tm_end 1 1) ex2_w1) !! 1%positive = None.
Proof.
  apply (commit_keeps_the_bytes 1 1 ex2_w1 true (after (tm_end 1 1) ex2_w1)).
  reflexivity.
Defined.

(** X6.  A transaction that begins at a fresh address and ends at once,
    read-only or not, leaves the world as it found it. *)
Theorem begin_end_round_trip shared is_ro tx w :
  txs w !! tx = None →
  ∃ w1, tm_begin shared is_ro (Some tx) w = Some (Some tx, w1) ∧
        txs w1 !! tx = Some (fresh_tx shared is_ro) ∧
        tm_end shared tx w1 = Some (true, w).
Proof.
  intros Hfresh. eexists. split; [reflexivity|]. simpl.
  rewrite lookup_insert_eq. split; [done|].
  unfold tm_end, bind, deref_tx. simpl. rewrite lookup_insert_eq. simpl.
  destruct is_ro; simpl; unfold delete_tx, bind, deref_tx; simpl;
    rewrite lookup_insert_eq; simpl; unfold modify, ret; simpl;
    rewrite delete_insert_id by done; by destruct w.
Qed.

Lemma begin_end_round_trip_witness :
  ∃ w1, tm_begin 1 true (Some 2%positive) ex_w0 = Some (Some 2%positive, w1) ∧
        txs w1 !! 2%positive = Some (fresh_tx 1 true) ∧
        tm_end 1 2 w1 = Some (true, ex_w0).
Proof.
  apply (begin_end_round_trip 1 true 2%positive ex_w0). reflexivity.
Defined.

Ltac stable_leaf :=
  prims; subst; simpl in *; explode; simplify_map_eq;
  try match goal with
  | H : rollback _ _ = Some _ |- _ => apply rollback_region_stable in H
  end;
  intros q;
  try match goal with
  | H : region_stable _ _ |- _ => rewrite (H q)
  end;
  simpl; try done.

Lemma run_op_region_stable shared tx o w r w' :
  run_op shared tx o w = Some (r, w') → region_stable w w'.
Proof.
  destruct o; simpl.
  - unfold tm_read. intros H.
    apply bind_inv in H as (reg & ? & Hreg & H).
    apply deref_region_inv in Hreg as [Hreg ->].
    apply bind_inv in H as (r' & w1 & Hloop & H).
    rewrite for_first_segment_locate in Hloop.
    destruct (locate _ _ _) as [[p|]|]; [| |done];
      unfold tm_read_copy in *; minv; stable_leaf.
  - unfold tm_write. intros H.
    apply bind_inv in H as (reg & ? & Hreg & H).
    apply deref_region_inv in Hreg as [Hreg ->].
    apply bind_inv in H as (r' & w1 & Hloop & H).
    rewrite for_first_segment_locate in Hloop.
    destruct (locate _ _ _) as [[p|]|]; [| |done];
      unfold tm_write_log in *; minv; stable_leaf.
  - intros H. apply bind_inv in H as (a & w1 & Ha & H).
    unfold ret in H. simplify_eq.
    unfold tm_alloc in Ha. minv; simpl in *; try done.
    intros q. simpl.
    match goal with
    | H : regions w !! shared = Some ?x |- _ =>
        destruct (decide (shared = q)) as [Heq|Hne];
        [rewrite Heq in *; rewrite lookup_insert_eq, H
        |rewrite lookup_insert_ne by done]; done
    end.
  - unfold tm_free. intros H.
    apply bind_inv in H as (reg & ? & Hreg & H).
    apply deref_region_inv in Hreg as [Hreg ->].
    apply bind_inv in H as (r' & w1 & Hloop & H).
    rewrite for_first_segment_locate in Hloop.
    destruct (locate _ _ _) as [[p|]|]; [| |done];
      unfold tm_free_mark in *; minv; stable_leaf.
Qed.

Lemma region_stable_queries w w' q :
  region_stable w w' →
  fst <$> tm_start q w' = fst <$> tm_start q w ∧
  fst <$> tm_size q w' = fst <$> tm_size q w ∧
  fst <$> tm_align q w' = fst <$> tm_align q w.
Proof.
  intros H. specialize (H q).
  unfold tm_start, tm_size, tm_align, bind, deref_region, ret.
  destruct (regions w' !! q) as [r'|], (regions w !! q) as [r|];
    simpl in *; try done.
  unfold reg_data in H. injection H as -> -> ->. done.
Qed.

(** X7.  What [tm_start], [tm_size] and [tm_align] answer for a region
    never changes: not by an operation of a transaction, whether it lets
    the transaction continue or aborts it, and not by a commit. *)
Theorem queries_are_stable shared tx o w r w' q :
  run_op shared tx o w = Some (r, w') ∨ tm_end shared tx w = Some (r, w') →
  fst <$> tm_start q w' = fst <$> tm_start q w ∧
  fst <$> tm_size q w' = fst <$> tm_size q w ∧
  fst <$> tm_align q w' = fst <$> tm_align q w.
Proof.
  intros [H|H]; apply region_stable_queries.
  - by eapply run_op_region_stable.
  - by apply tm_end_inv in H as (_ & _ & _ & _ & ?).
Qed.

Lemma queries_are_stable_witness :
  fst <$> tm_start 1 ex10_w' = fst <$> tm_start 1 ex_w0 ∧
  fst <$> tm_size 1 ex10_w' = fst <$> tm_size 1 ex_w0 ∧
  fst <$> tm_align 1 ex10_w' = fst <$> tm_align 1 ex_w0.
Proof.
  apply (queries_are_stable 1 1 (OpAlloc 16 3000 (Some 3%positive) (Some 400))
           ex_w0 true ex10_w' 1%positive).
  left. reflexivity.
Defined.

(** ** Running the operations forward *)

(** A read of a segment whose lock the transaction does not hold and no
    writer holds. *)
Lemma tm_read_acquires shared tx source size target w reg p seg t :
  regions w !! shared = Some reg →
  locate (segs w) (contains source) (region.segments reg) = Some (Some p) →
  segs w !! p = Some seg →
  writer (segment.lock seg) = false →
  segment.freed seg = false →
  txs w !! tx = Some t →
  holds_lock t p = false →
  ∃ w',
    tm_read shared tx source size target w = Some (true, w') ∧
    bytes w' = memcpy (bytes w) target source size ∧
    segs w' = <[p := segment.set_lock
                       (Mutex false (S (readers (segment.lock seg)))) seg]> (segs w) ∧
    txs w' = <[tx := transaction.set_read_locks
                       (transaction.read_locks t ++ [p]) t]> (txs w) ∧
    regions w' = regions w ∧
    new_events w w' = [EvTryLockShared p; EvCheckLock tx p].
Proof.
  intros Hreg Hloc Hseg Hw Hfreed Ht Hheld.
  eexists. split.
  - unfold tm_read. enter_loop Hreg Hloc. fwd. reflexivity.
  - simpl. split_and!; try done. by apply new_events_app.
Qed.

(** A write to a segment whose lock is free. *)
Lemma tm_write_acquires shared tx source size target w reg p seg t :
  regions w !! shared = Some reg →
  locate (segs w) (contains target) (region.segments reg) = Some (Some p) →
  segs w !! p = Some seg →
  lock_is_free (segment.lock seg) = true →
  segment.freed seg = false →
  txs w !! tx = Some t →
  holds_lock t p = false →
  ∃ w',
    tm_write shared tx source size target true true w = Some (true, w') ∧
    bytes w' = memcpy (bytes w) target source size ∧
    segs w' = <[p := segment.set_lock (Mutex true 0) seg]> (segs w) ∧
    txs w' = <[tx := transaction.set_logs
                       (log.mk size target (load_bytes (bytes w) target (Z.to_nat size))
                          :: transaction.logs t)
                       (transaction.set_locks (transaction.locks t ++ [p]) t)]>
               (txs w) ∧
    regions w' = regions w ∧
    new_events w w' = [EvTryLock p; EvCheckLock tx p].
Proof.
  intros Hreg Hloc Hseg Hw Hfreed Ht Hheld.
  eexists. split.
  - unfold tm_write. enter_loop Hreg Hloc. fwd. reflexivity.
  - simpl. split_and!; try done.
    + by rewrite insert_insert_eq.
    + by apply new_events_app.
Qed.

(** A write to a segment whose lock the transaction holds. *)
Lemma tm_write_held shared tx source size target w reg p seg t :
  regions w !! shared = Some reg →
  locate (segs w) (contains target) (region.segments reg) = Some (Some p) →
  segs w !! p = Some seg →
  segment.freed seg = false →
  txs w !! tx = Some t →
  holds_lock t p = true →
  ∃ w',
    tm_write shared tx source size target true true w = Some (true, w') ∧
    bytes w' = memcpy (bytes w) target source size ∧
    segs w' = segs w ∧
    txs w' = <[tx := transaction.set_logs
                       (log.mk size target (load_bytes (bytes w) target (Z.to_nat size))
                          :: transaction.logs t) t]> (txs w) ∧
    regions w' = regions w ∧
    new_events w w' = [EvCheckLock tx p].
Proof.
  intros Hreg Hloc Hseg Hfreed Ht Hheld.
  eexists. split.
  - unfold tm_write. enter_loop Hreg Hloc. fwd. reflexivity.
  - simpl. split_and!; try done. by apply new_events_app.
Qed.

(** X8.  Readers do not exclude each other: a read of a segment that is
    not flagged and has no writer goes through however many readers hold
    its lock, counts one more reader, records the lock in [read_locks] and
    copies the bytes. *)
Theorem readers_share shared tx source size target w reg p seg t :
  regions w !! shared = Some reg →
  locate (segs w) (contains source) (region.segments reg) = Some (Some p) →
  segs w !! p = Some seg →
  writer (segment.lock seg) = false →
  segment.freed seg = false →
  txs w !! tx = Some t →
  holds_lock t p = false →
  ∃ w' seg' t',
    tm_read shared tx source size target w = Some (true, w') ∧
    load_bytes (bytes w') target (Z.to_nat size)
      = load_bytes (bytes w) source (Z.to_nat size) ∧
    segs w' !! p = Some seg' ∧
    segment.lock seg' = Mutex false (S (readers (segment.lock seg))) ∧
    txs w' !! tx = Some t' ∧
    transaction.read_locks t' = transaction.read_locks t ++ [p].
Proof.
  intros Hreg Hloc Hseg Hw Hfreed Ht Hheld.
  destruct (tm_read_acquires shared tx source size target _ _ _ _ _
              Hreg Hloc Hseg Hw Hfreed Ht Hheld)
    as (w' & Hrun & Hb & Hs & Htx & _).
  exists w'. eexists _, _. split; [done|]. rewrite Hb, Hs, Htx, !lookup_insert_eq.
  split_and!; try done.
  unfold memcpy. by rewrite load_store_bytes_n by apply load_bytes_length.
Qed.

Lemma readers_share_witness :
  ∃ w' seg' t',
    tm_read 1 1 100 8 2000 ex8_w = Some (true, w') ∧
    load_bytes (bytes w') 2000 (Z.to_nat 8) = load_bytes (bytes ex8_w) 100 (Z.to_nat 8) ∧
    segs w' !! 1%positive = Some seg' ∧
    segment.lock seg' = Mutex false 2 ∧
    txs w' !! 1%positive = Some t' ∧
    transaction.read_locks t' = [1%positive].
Proof.
  eapply (readers_share 1 1 100 8 2000 ex8_w _ 1
            (segment.mk (Mutex false 1) 100 16 false) ex_tx);
    reflexivity.
Defined.

(** X9.  A segment locked by somebody else stops the transaction: where
    the mutex has a writer, a read of the segment is a rollback followed
    by [return false]; where the mutex has a writer or a reader, so is a
    write, even with the transaction itself not yet recorded as a reader.
    In both cases the rollback starts from the bytes, the segments and the
    transactions of the call: nothing was copied and no lock taken. *)
Theorem contention_aborts shared tx source size target A new_log malloc_ok
    w reg p seg t :
  regions w !! shared = Some reg →
  locate (segs w) (contains A) (region.segments reg) = Some (Some p) →
  segs w !! p = Some seg →
  txs w !! tx = Some t →
  holds_lock t p = false →
  (writer (segment.lock seg) = true →
   ∃ w1, tm_read shared tx A size target w = (run rollback tx ;; ret false) w1 ∧
         bytes w1 = bytes w ∧ segs w1 = segs w ∧ txs w1 = txs w) ∧
  (lock_is_free (segment.lock seg) = false →
   ∃ w1, tm_write shared tx source size A new_log malloc_ok w
           = (run rollback tx ;; ret false) w1 ∧
         bytes w1 = bytes w ∧ segs w1 = segs w ∧ txs w1 = txs w).
Proof.
  intros Hreg Hloc Hseg Ht Hheld. split; intros Hbusy.
  - unfold tm_read. enter_loop Hreg Hloc.
    unfold bind at 1 2, check_lock, bind at 1 2, emit, modify, deref_tx. simpl.
    rewrite Ht. unfold ret at 1. simpl. rewrite Hheld. simpl.
    unfold try_lock_shared, bind at 1 2 3, emit, modify, deref_seg. simpl.
    rewrite Hseg, Hbusy. simpl. close_abort.
  - unfold tm_write. enter_loop Hreg Hloc.
    unfold bind at 1 2, check_lock, bind at 1 2, emit, modify, deref_tx. simpl.
    rewrite Ht. unfold ret at 1. simpl. rewrite Hheld. simpl.
    unfold try_lock, bind at 1 2 3, emit, modify, deref_seg. simpl.
    rewrite Hseg, Hbusy. simpl. close_abort.
Qed.

Lemma contention_aborts_witness :
  (∃ w1, tm_read 1 2 100 8 2100 ex9_w = (run rollback 2 ;; ret false) w1 ∧
         bytes w1 = bytes ex9_w ∧ segs w1 = segs ex9_w ∧ txs w1 = txs ex9_w) ∧
  (∃ w1, tm_write 1 2 1008 8 100 true true ex9_w = (run rollback 2 ;; ret false) w1 ∧
         bytes w1 = bytes ex9_w ∧ segs w1 = segs ex9_w ∧ txs w1 = txs ex9_w) ∧
  tm_read 1 2 100 8 2100 ex9_w = Some (false, after (tm_read 1 2 100 8 2100) ex9_w) ∧
  bytes (after (tm_write 1 2 1008 8 100 true true) ex9_w) 100 = x01.
Proof.
  destruct (contention_aborts 1 2 1008 8 2100 100 true true ex9_w
              (region.mk 100 [1%positive; 2%positive] 16 8) 1
              (segment.mk (Mutex true 0) 100 16 false) (fresh_tx 1 false))
    as [Hread Hwrite]; try reflexivity.
  split; [exact (Hread eq_refl)|]. split; [exact (Hwrite eq_refl)|].
  split; reflexivity.
Defined.

Lemma seg_data_insert_lock (h : gmap positive segment.t) p seg l q :
  h !! p = Some seg →
  seg_data <$> <[p := segment.set_lock l seg]> h !! q = seg_data <$> h !! q.
Proof.
  intros Hp. destruct (decide (p = q)) as [->|Hne].
  - by rewrite lookup_insert_eq, Hp.
  - by rewrite lookup_insert_ne.
Qed.

(** The commit of a read-write transaction that recorded one exclusive
    lock, by a write or by an allocation, and nothing else. *)
Lemma tm_end_one_lock shared tx w t p s :
  txs w !! tx = Some t →
  transaction.is_ro t = false →
  transaction.read_locks t = [] →
  transaction.to_free t = [] →
  (transaction.locks t = [p] ∧ transaction.new_seg_locks t = []) ∨
  (transaction.locks t = [] ∧ transaction.new_seg_locks t = [p]) →
  segs w !! p = Some s →
  writer (segment.lock s) = true →
  ∃ w',
    tm_end shared tx w = Some (true, w') ∧
    bytes w' = bytes w ∧ regions w' = regions w ∧
    segs w' = <[p := segment.set_lock
                       (Mutex false (readers (segment.lock s))) s]> (segs w) ∧
    txs w' = delete tx (txs w).
Proof.
  intros Ht Hro Hrl Hfr Hlocks Hs Hw.
  eexists. split.
  - unfold tm_end, bind at 1, deref_tx. rewrite Ht.
    rewrite Hro, Hrl, Hfr.
    destruct Hlocks as [[-> ->]|[-> ->]]; fwd; reflexivity.
  - simpl. done.
Qed.

(** X10.  What a transaction wrote and committed is what a later
    transaction reads.  The first transaction, fresh from [tm_begin],
    writes to a segment whose lock is free and ends; the commit gives the
    lock back, and a read of the same address by another transaction goes
    through and finds the bytes that the write took from its source. *)
Theorem committed_write_is_read shared tx1 tx2 source size A target
    w reg p seg t2 :
  regions w !! shared = Some reg →
  locate (segs w) (contains A) (region.segments reg) = Some (Some p) →
  segs w !! p = Some seg →
  lock_is_free (segment.lock seg) = true →
  segment.freed seg = false →
  txs w !! tx1 = Some (fresh_tx shared false) →
  tx1 ≠ tx2 →
  txs w !! tx2 = Some t2 →
  holds_lock t2 p = false →
  ∃ w1 w2 w3,
    tm_write shared tx1 source size A true true w = Some (true, w1) ∧
    tm_end shared tx1 w1 = Some (true, w2) ∧
    segs w2 !! p = Some (segment.set_lock (Mutex false 0) seg) ∧
    tm_read shared tx2 A size target w2 = Some (true, w3) ∧
    load_bytes (bytes w3) target (Z.to_nat size)
      = load_bytes (bytes w) source (Z.to_nat size).
Proof.
  intros Hreg Hloc Hseg Hfree Hfreed Ht1 Hne Ht2 Hheld.
  destruct (tm_write_acquires shared tx1 source size A _ _ _ _ _
              Hreg Hloc Hseg Hfree Hfreed Ht1 eq_refl)
    as (w1 & Hwrite & Hb1 & Hs1 & Htx1 & Hr1 & _).
  destruct (tm_end_one_lock shared tx1 w1
              (transaction.set_logs
                 [log.mk size A (load_bytes (bytes w) A (Z.to_nat size))]
                 (transaction.set_locks [p] (fresh_tx shared false)))
              p (segment.set_lock (Mutex true 0) seg))
    as (w2 & Hend & Hb2 & Hr2 & Hs2 & Htx2); try done.
  { rewrite Htx1. apply lookup_insert_eq. }
  { by left. }
  { rewrite Hs1. apply lookup_insert_eq. }
  assert (segs w2 !! p = Some (segment.set_lock (Mutex false 0) seg)) as Hp2.
  { rewrite Hs2. apply lookup_insert_eq. }
  destruct (tm_read_acquires shared tx2 A size target w2 reg p
              (segment.set_lock (Mutex false 0) seg) t2)
    as (w3 & Hread & Hb3 & _); try done.
  { by rewrite Hr2, Hr1. }
  { rewrite <- Hloc. apply locate_ext; [|apply contains_data].
    intros q. rewrite Hs2, Hs1. destruct (decide (p = q)) as [->|Hpq].
    - by rewrite lookup_insert_eq, Hseg.
    - by rewrite !lookup_insert_ne. }
  { rewrite Htx2, Htx1. by rewrite lookup_delete_ne, lookup_insert_ne. }
  exists w1, w2, w3. split_and!; try done.
  rewrite Hb3, Hb2, Hb1. unfold memcpy.
  rewrite load_store_bytes_n by apply load_bytes_length.
  by rewrite load_store_bytes_n by apply load_bytes_length.
Qed.

Lemma committed_write_is_read_witness :
  ∃ w1 w2 w3,
    tm_write 1 1 1000 8 100 true true ex8_w0 = Some (true, w1) ∧
    tm_end 1 1 w1 = Some (true, w2) ∧
    segs w2 !! 1%positive
      = Some (segment.set_lock (Mutex false 0) (segment.mk unlocked 100 16 false)) ∧
    tm_read 1 2 100 8 2100 w2 = Some (true, w3) ∧
    load_bytes (bytes w3) 2100 (Z.to_nat 8) = load_bytes (bytes ex8_w0) 1000 (Z.to_nat 8).
Proof.
  eapply (committed_write_is_read 1 1 2 1000 8 100 2100 ex8_w0
            (region.mk 100 [1%positive; 2%positive] 16 8) 1
            (segment.mk unlocked 100 16 false) (fresh_tx 1 true));
    try reflexivity.
  discriminate.
Defined.

(** ** Allocations *)

Lemma locate_app_none h test l l' :
  locate h test l = Some None → locate h test (l ++ l') = locate h test l'.
Proof.
  induction l as [|q l IH]; simpl; [done|].
  destruct (h !! q) as [s|]; [|done]. destruct (test s); [done|]. apply IH.
Qed.

Lemma locate_insert_fresh h test l p s :
  h !! p = None → locate h test l = Some None →
  locate (<[p := s]> h) test l = Some None.
Proof.
  intros Hp. induction l as [|q l IH]; simpl; [done|].
  destruct (h !! q) as [sq|] eqn:Hq; [|done].
  rewrite lookup_insert_ne by congruence. rewrite Hq.
  destruct (test sq); [done|]. apply IH.
Qed.

Lemma index_of_app_fresh p l :
  p ∉ l → index_of p (l ++ [p]) = Some (length l).
Proof.
  induction l as [|q l IH]; intros Hp; simpl.
  - by rewrite Pos.eqb_refl.
  - apply not_elem_of_cons in Hp as [Hne Hp].
    destruct (Pos.eqb_spec q p) as [->|_]; [done|]. by rewrite IH.
Qed.

Lemma load_bytes_zero m a n :
  (∀ i, (i < n)%nat → m (a + Z.of_nat i) = x00) →
  load_bytes m a n = repeat x00 n.
Proof.
  intros H. apply (nth_ext _ _ x00 x00).
  - by rewrite load_bytes_length, repeat_length.
  - intros i Hi. rewrite load_bytes_length in Hi.
    rewrite load_bytes_nth by done. rewrite nth_repeat. by apply H.
Qed.

(** What an allocation that gets its memory does. *)
Lemma tm_alloc_success shared tx size target p m w reg t :
  regions w !! shared = Some reg →
  txs w !! tx = Some t →
  ∃ w',
    tm_alloc shared tx size target (Some p) (Some m) w = Some (success, w') ∧
    bytes w' = store_bytes (memset0 (bytes w) m size) target (pointer_bytes m) ∧
    segs w' = <[p := segment.mk (Mutex true 0) m size false]> (segs w) ∧
    txs w' = <[tx := transaction.set_new_segments
                       (transaction.new_segments t ++ [p])
                       (transaction.set_new_seg_locks
                          (transaction.new_seg_locks t ++ [p]) t)]> (txs w) ∧
    regions w' = <[shared := region.set_segments (region.segments reg ++ [p]) reg]>
                   (regions w) ∧
    trace w' = trace w.
Proof.
  intros Hreg Ht. eexists. split.
  - unfold tm_alloc. fwd. reflexivity.
  - simpl. split_and!; try done. by rewrite insert_insert_eq.
Qed.

(** X11.  A transaction reads zeros from the segment it has just
    allocated, and asks for no lock to do so: the allocation zeroes the
    buffer, stores its address in the eight bytes at [target], and records
    the lock of the new segment, which [check_lock] then finds.  The
    buffer is at an address that no segment of the region contains, the
    new segment at a fresh address, and the cell at [target] is outside
    the bytes read. *)
Theorem alloc_then_read_zeros shared tx size target p m n rtarget w reg t :
  regions w !! shared = Some reg →
  txs w !! tx = Some t →
  segs w !! p = None →
  locate (segs w) (contains m) (region.segments reg) = Some None →
  0 < n <= size →
  (∀ a, covers a m n → ¬ covers a target 8) →
  ∃ w1 w2,
    tm_alloc shared tx size target (Some p) (Some m) w = Some (success, w1) ∧
    load_bytes (bytes w1) target 8 = pointer_bytes m ∧
    tm_read shared tx m n rtarget w1 = Some (true, w2) ∧
    load_bytes (bytes w2) rtarget (Z.to_nat n) = repeat x00 (Z.to_nat n) ∧
    new_events w1 w2 = [EvCheckLock tx p].
Proof.
  intros Hreg Ht Hp Hloc Hn Hcell.
  destruct (tm_alloc_success shared tx size target p m w reg t Hreg Ht)
    as (w1 & Halloc & Hb1 & Hs1 & Htx1 & Hr1 & _).
  exists w1. eexists. split; [done|]. split.
  { rewrite Hb1. by apply load_store_bytes_n. }
  erewrite (tm_read_held shared tx m n rtarget w1 _ p _
              (segment.mk (Mutex true 0) m size false)).
  - split; [reflexivity|]. simpl. split; [|by apply new_events_app].
    unfold memcpy. rewrite load_store_bytes_n by apply load_bytes_length.
    apply load_bytes_zero. intros i Hi. rewrite Hb1.
    rewrite store_bytes_out.
    + apply memset0_in. unfold covers. lia.
    + change (length (pointer_bytes m)) with 8%nat.
      apply (Hcell (m + Z.of_nat i)). unfold covers. lia.
  - rewrite Hr1. apply lookup_insert_eq.
  - simpl. rewrite Hs1, locate_app_none by (by apply locate_insert_fresh).
    simpl. rewrite lookup_insert_eq. unfold contains. simpl.
    replace (m >=? m) with true by (symmetry; apply Z.geb_le; lia).
    replace (m <? m + size) with true by (symmetry; apply Z.ltb_lt; lia).
    done.
  - rewrite Htx1. apply lookup_insert_eq.
  - unfold holds_lock. simpl. rewrite existsb_push.
    by destruct (existsb _ (transaction.locks t)),
                (existsb _ (transaction.read_locks t)).
  - rewrite Hs1. apply lookup_insert_eq.
  - done.
Qed.

Lemma alloc_then_read_zeros_witness :
  ∃ w1 w2,
    tm_alloc 1 1 16 3000 (Some 3%positive) (Some 400) ex_w0 = Some (success, w1) ∧
    load_bytes (bytes w1) 3000 8 = pointer_bytes 400 ∧
    tm_read 1 1 400 16 2000 w1 = Some (true, w2) ∧
    load_bytes (bytes w2) 2000 (Z.to_nat 16) = repeat x00 (Z.to_nat 16) ∧
    new_events w1 w2 = [EvCheckLock 1 3].
Proof.
  eapply (alloc_then_read_zeros 1 1 16 3000 3%positive 400 16 2000 ex_w0 _ ex_tx);
    try reflexivity.
  - lia.
  - unfold covers. lia.
Defined.

(** X12.  An allocation survives the commit of its transaction: after a
    fresh transaction allocates and ends, the new segment is the last of
    the region, unlocked and not flagged, its buffer (but for the cell at
    [target], should it lie inside) is zero, and the handle of the
    transaction points to nothing. *)
Theorem alloc_survives_commit shared tx size target p m w reg :
  regions w !! shared = Some reg →
  txs w !! tx = Some (fresh_tx shared false) →
  ∃ w1 w2,
    tm_alloc shared tx size target (Some p) (Some m) w = Some (success, w1) ∧
    tm_end shared tx w1 = Some (true, w2) ∧
    regions w2 !! shared
      = Some (region.set_segments (region.segments reg ++ [p]) reg) ∧
    segs w2 !! p = Some (segment.mk (Mutex false 0) m size false) ∧
    (∀ a, covers a m size → ¬ covers a target 8 → bytes w2 a = x00) ∧
    txs w2 !! tx = None.
Proof.
  intros Hreg Ht.
  destruct (tm_alloc_success shared tx size target p m w reg _ Hreg Ht)
    as (w1 & Halloc & Hb1 & Hs1 & Htx1 & Hr1 & _).
  destruct (tm_end_one_lock shared tx w1
              (transaction.set_new_segments [p]
                 (transaction.set_new_seg_locks [p] (fresh_tx shared false)))
              p (segment.mk (Mutex true 0) m size false))
    as (w2 & Hend & Hb2 & Hr2 & Hs2 & Htx2); try done.
  { rewrite Htx1. apply lookup_insert_eq. }
  { by right. }
  { rewrite Hs1. apply lookup_insert_eq. }
  exists w1, w2. split_and!; try done.
  - rewrite Hr2, Hr1. apply lookup_insert_eq.
  - rewrite Hs2. apply lookup_insert_eq.
  - intros a Ha Hcell. rewrite Hb2, Hb1.
    rewrite store_bytes_out by (change (length (pointer_bytes m)) with 8%nat;
                                unfold covers in Hcell; lia).
    by apply memset0_in.
  - rewrite Htx2. apply lookup_delete_eq.
Qed.

Lemma alloc_survives_commit_witness :
  ∃ w1 w2,
    tm_alloc 1 1 16 3000 (Some 3%positive) (Some 400) ex_w0 = Some (success, w1) ∧
    tm_end 1 1 w1 = Some (true, w2) ∧
    regions w2 !! 1%positive
      = Some (region.set_segments ([1%positive; 2%positive] ++ [3%positive])
                (region.mk 100 [1%positive; 2%positive] 16 8)) ∧
    segs w2 !! 3%positive = Some (segment.mk (Mutex false 0) 400 16 false) ∧
    (∀ a, covers a 400 16 → ¬ covers a 3000 8 → bytes w2 a = x00) ∧
    txs w2 !! 1%positive = None.
Proof.
  apply (alloc_survives_commit 1 1 16 3000 3%positive 400 ex_w0
           (region.mk 100 [1%positive; 2%positive] 16 8)); reflexivity.
Defined.

(** X13.  An allocation does not survive the rollback of its transaction:
    after a fresh transaction of the region allocates a segment at a fresh
    address and is rolled back, the regions and the segments are those of
    before the allocation, and the handle points to nothing. *)
Theorem alloc_undone_by_rollback shared tx size target p m w reg :
  regions w !! shared = Some reg →
  txs w !! tx = Some (fresh_tx shared false) →
  segs w !! p = None →
  p ∉ region.segments reg →
  ∃ w1 w2,
    tm_alloc shared tx size target (Some p) (Some m) w = Some (success, w1) ∧
    rollback tx w1 = Some (tt, w2) ∧
    regions w2 = regions w ∧ segs w2 = segs w ∧ txs w2 = delete tx (txs w).
Proof.
  intros Hreg Ht Hp Hnew.
  destruct (tm_alloc_success shared tx size target p m w reg _ Hreg Ht)
    as (w1 & Halloc & Hb1 & Hs1 & Htx1 & Hr1 & Htr1).
  exists w1. destruct w1 as [b1 r1 s1 t1 tr1]. simpl in *. subst.
  eexists. split; [done|]. split.
  - unfold rollback. fwd. rewrite index_of_app_fresh by done. fwd. reflexivity.
  - simpl. rewrite delete_middle, app_nil_r.
    rewrite !insert_insert_eq, !delete_insert_id by done.
    split_and!; try done.
    + destruct reg. by apply insert_id.
    + by rewrite delete_insert_eq.
Qed.

Lemma alloc_undone_by_rollback_witness :
  ∃ w1 w2,
    tm_alloc 1 1 16 3000 (Some 3%positive) (Some 400) ex_w0 = Some (success, w1) ∧
    rollback 1 w1 = Some (tt, w2) ∧
    regions w2 = regions ex_w0 ∧ segs w2 = segs ex_w0 ∧
    txs w2 = delete 1%positive (txs ex_w0).
Proof.
  apply (alloc_undone_by_rollback 1 1 16 3000 3%positive 400 ex_w0
           (region.mk 100 [1%positive; 2%positive] 16 8)); try reflexivity.
  intros Hin. repeat (apply elem_of_cons in Hin as [Hin|Hin]; [discriminate|]).
  by apply elem_of_nil in Hin.
Defined.

(** ** More on locks and logs *)

(** X14.  Every record of the undo log holds exactly as many old bytes as
    its size says, whatever operations the transaction runs: a write logs
    [size] bytes read at its target, and nothing else touches the log. *)
Theorem undo_log_well_sized shared tx ops :
  ∀ w w' t,
    txs w !! tx = Some t →
    well_sized (transaction.logs t) →
    run_ops shared tx ops w = Some (true, w') →
    ∃ t', txs w' !! tx = Some t' ∧ well_sized (transaction.logs t').
Proof.
  induction ops as [|o ops IH]; intros w w' t Ht Hwf Hrun; simpl in Hrun.
  - unfold ret in Hrun. simplify_eq. eauto.
  - apply bind_inv in Hrun as (go & w1 & Hop & Hrun).
    destruct go; [|by unfold ret in Hrun].
    destruct (run_op_true _ _ _ _ _ _ Hop Ht) as (t1 & Ht1 & _ & _ & Hlogs1).
    eapply IH; [exact Ht1| |exact Hrun].
    rewrite Hlogs1. destruct o; try done.
    constructor; [|done]. simpl. apply load_bytes_length.
Qed.

Lemma undo_log_well_sized_witness :
  ∃ t', txs ex1_w_end !! 1%positive = Some t' ∧ well_sized (transaction.logs t').
Proof.
  apply (undo_log_well_sized 1 1
           (ex1_pre ++ OpWrite 1000 8 100 true true :: ex1_post)
           ex_w0 ex1_w_end ex_tx).
  - reflexivity.
  - constructor.
  - reflexivity.
Defined.

(** A free of a segment whose lock is free. *)
Lemma tm_free_acquires shared tx target w reg p seg t :
  regions w !! shared = Some reg →
  locate (segs w) (λ seg, target =? segment.mem seg) (region.segments reg)
    = Some (Some p) →
  segs w !! p = Some seg →
  lock_is_free (segment.lock seg) = true →
  txs w !! tx = Some t →
  ∃ w',
    tm_free shared tx target w = Some (true, w') ∧
    bytes w' = bytes w ∧
    segs w' = <[p := segment.set_freed true
                       (segment.set_lock (Mutex true 0) seg)]> (segs w) ∧
    txs w' = <[tx := transaction.set_to_free_locks
                       (transaction.to_free_locks t ++ [p]) t]> (txs w) ∧
    regions w' = regions w.
Proof.
  intros Hreg Hloc Hseg Hfree Ht. eexists. split.
  - unfold tm_free. enter_loop Hreg Hloc. fwd. reflexivity.
  - simpl. split_and!; try done. by rewrite insert_insert_eq.
Qed.

(** X15.  The flag that [tm_free] sets outlives the transaction either
    way.  A fresh transaction frees a segment whose lock is free (the first
    segment of the region is not told apart from the others).  If it
    commits, the segment is still in the region, flagged, and its mutex
    keeps the writer that nobody will release.  If it is rolled back, the
    mutex is released and the segment is still flagged. *)
Theorem free_outlives_transaction shared tx target w reg p seg :
  regions w !! shared = Some reg →
  locate (segs w) (λ seg, target =? segment.mem seg) (region.segments reg)
    = Some (Some p) →
  segs w !! p = Some seg →
  lock_is_free (segment.lock seg) = true →
  txs w !! tx = Some (fresh_tx shared false) →
  ∃ w1,
    tm_free shared tx target w = Some (true, w1) ∧
    (∃ w2, tm_end shared tx w1 = Some (true, w2) ∧
           regions w2 = regions w ∧
           segs w2 !! p = Some (segment.set_freed true
                                  (segment.set_lock (Mutex true 0) seg))) ∧
    (∃ w3, rollback tx w1 = Some (tt, w3) ∧
           regions w3 = regions w ∧
           segs w3 !! p = Some (segment.set_freed true
                                  (segment.set_lock (Mutex false 0) seg))).
Proof.
  intros Hreg Hloc Hseg Hfree Ht.
  destruct (tm_free_acquires shared tx target w reg p seg _
              Hreg Hloc Hseg Hfree Ht)
    as (w1 & Hrun & Hb1 & Hs1 & Htx1 & Hr1).
  exists w1. destruct w1 as [b1 r1 s1 t1 tr1]. simpl in *. subst.
  split; [done|]. split.
  - eexists. split; [unfold tm_end; fwd; reflexivity|]. simpl.
    split; [done|]. apply lookup_insert_eq.
  - eexists. split; [unfold rollback; fwd; reflexivity|]. simpl.
    split; [done|]. apply lookup_insert_eq.
Qed.

Lemma free_outlives_transaction_witness :
  ∃ w1,
    tm_free 1 1 100 ex_w0 = Some (true, w1) ∧
    (∃ w2, tm_end 1 1 w1 = Some (true, w2) ∧
           regions w2 = regions ex_w0 ∧
           segs w2 !! 1%positive
             = Some (segment.set_freed true
                       (segment.set_lock (Mutex true 0)
                          (segment.mk unlocked 100 16 false)))) ∧
    (∃ w3, rollback 1 w1 = Some (tt, w3) ∧
           regions w3 = regions ex_w0 ∧
           segs w3 !! 1%positive
             = Some (segment.set_freed true
                       (segment.set_lock (Mutex false 0)
                          (segment.mk unlocked 100 16 false)))).
Proof.
  apply (free_outlives_transaction 1 1 100 ex_w0
           (region.mk 100 [1%positive; 2%positive] 16 8) 1
           (segment.mk unlocked 100 16 false)); reflexivity.
Defined.

(** X16.  A transaction that read a segment writes to it under its shared
    lock: the write finds the lock in [read_locks], asks for no exclusive
    lock, and goes through; the mutex still has no writer, so other
    readers are not kept out of the bytes being written. *)
Theorem write_after_read_keeps_shared shared tx source size A rtarget
    w reg p seg t :
  regions w !! shared = Some reg →
  locate (segs w) (contains A) (region.segments reg) = Some (Some p) →
  segs w !! p = Some seg →
  writer (segment.lock seg) = false →
  segment.freed seg = false →
  txs w !! tx = Some t →
  holds_lock t p = false →
  ∃ w1 w2 seg2,
    tm_read shared tx A size rtarget w = Some (true, w1) ∧
    tm_write shared tx source size A true true w1 = Some (true, w2) ∧
    new_events w1 w2 = [EvCheckLock tx p] ∧
    segs w2 !! p = Some seg2 ∧
    segment.lock seg2 = Mutex false (S (readers (segment.lock seg))).
Proof.
  intros Hreg Hloc Hseg Hw Hfreed Ht Hheld.
  destruct (tm_read_acquires shared tx A size rtarget _ _ _ _ _
              Hreg Hloc Hseg Hw Hfreed Ht Hheld)
    as (w1 & Hread & Hb1 & Hs1 & Htx1 & Hr1 & _).
  destruct (tm_write_held shared tx source size A w1 reg p
              (segment.set_lock (Mutex false (S (readers (segment.lock seg)))) seg)
              (transaction.set_read_locks (transaction.read_locks t ++ [p]) t))
    as (w2 & Hwrite & _ & Hs2 & _ & _ & Hev); try done.
  { by rewrite Hr1. }
  { rewrite <- Hloc. apply locate_ext; [|apply contains_data].
    intros q. rewrite Hs1. by apply seg_data_insert_lock. }
  { rewrite Hs1. apply lookup_insert_eq. }
  { rewrite Htx1. apply lookup_insert_eq. }
  { unfold holds_lock. simpl. rewrite existsb_push.
    by destruct (existsb _ (transaction.locks t)). }
  exists w1, w2. eexists. split_and!; try done.
  - rewrite Hs2, Hs1. apply lookup_insert_eq.
  - done.
Qed.

Lemma write_after_read_keeps_shared_witness :
  ∃ w1 w2 seg2,
    tm_read 1 1 100 8 2000 ex8_w = Some (true, w1) ∧
    tm_write 1 1 1000 8 100 true true w1 = Some (true, w2) ∧
    new_events w1 w2 = [EvCheckLock 1 1] ∧
    segs w2 !! 1%positive = Some seg2 ∧
    segment.lock seg2 = Mutex false 2.
Proof.
  eapply (write_after_read_keeps_shared 1 1 1000 8 100 2000 ex8_w _ 1
            (segment.mk (Mutex false 1) 100 16 false) ex_tx);
    reflexivity.
Defined.

(** ** Edges *)

(** X17.  The first read of a new region finds zeros: after [tm_create]
    and [tm_begin], read-only or not, a read of up to [size] bytes from
    the start of the region goes through and copies zeros. *)
Theorem new_region_reads_zero size align reg seg start is_ro tx n target w :
  0 < n <= size →
  ∃ w1 w2 w3,
    tm_create size align (Some reg) (Some seg) (Some start) w = Some (Some reg, w1) ∧
    tm_begin reg is_ro (Some tx) w1 = Some (Some tx, w2) ∧
    tm_read reg tx start n target w2 = Some (true, w3) ∧
    load_bytes (bytes w3) target (Z.to_nat n) = repeat x00 (Z.to_nat n).
Proof.
  intros Hn.
  destruct (tm_create_success size align reg seg start w)
    as (w1 & Hcreate & Hr1 & Hs1 & Hb1 & _).
  assert (regions w1 !! reg = Some (region.mk start [seg] size align)) as Hreg1
    by (rewrite Hr1; apply lookup_insert_eq).
  assert (segs w1 !! seg = Some (segment.mk unlocked start size false)) as Hseg1
    by (rewrite Hs1; apply lookup_insert_eq).
  assert (∀ a, covers a start size → bytes w1 a = x00) as Hzero
    by (intros a Ha; rewrite Hb1; by apply memset0_in).
  exists w1.
  destruct (tm_read_acquires reg tx start n target
              (set_txs (<[tx := fresh_tx reg is_ro]> (txs w1)) w1)
              (region.mk start [seg] size align) seg
              (segment.mk unlocked start size false) (fresh_tx reg is_ro))
    as (w3 & Hread & Hb3 & _); simpl; try done.
  - rewrite Hseg1. unfold contains. simpl.
    replace (start >=? start) with true by (symmetry; apply Z.geb_le; lia).
    replace (start <? start + size) with true by (symmetry; apply Z.ltb_lt; lia).
    done.
  - apply lookup_insert_eq.
  - eexists _, w3. split; [done|]. split; [reflexivity|]. split; [exact Hread|].
    rewrite Hb3. simpl. unfold memcpy.
    rewrite load_store_bytes_n by apply load_bytes_length.
    apply load_bytes_zero. intros i Hi. apply Hzero. unfold covers. lia.
Qed.

Lemma new_region_reads_zero_witness :
  ∃ w1 w2 w3,
    tm_create 1024 8 (Some 2%positive) (Some 3%positive) (Some 4096) ex_w0
      = Some (Some 2%positive, w1) ∧
    tm_begin 2 true (Some 5%positive) w1 = Some (Some 5%positive, w2) ∧
    tm_read 2 5 4096 8 2000 w2 = Some (true, w3) ∧
    load_bytes (bytes w3) 2000 (Z.to_nat 8) = repeat x00 (Z.to_nat 8).
Proof.
  apply (new_region_reads_zero 1024 8 2%positive 3%positive 4096 true
           5%positive 8 2000 ex_w0).
  lia.
Defined.

(** X18.  An address that the scan of the region finds in no segment
    aborts the transaction: a read and a free are then a rollback followed
    by [return false], and so is a write, once it has printed its
    message. *)
Theorem unmapped_address_aborts shared tx source size target A new_log malloc_ok
    w reg :
  regions w !! shared = Some reg →
  (locate (segs w) (contains A) (region.segments reg) = Some None →
   tm_read shared tx A size target w = (run rollback tx ;; ret false) w ∧
   tm_write shared tx source size A new_log malloc_ok w
     = (run emit (EvPrintf not_found_for_write) ;; run rollback tx ;; ret false) w) ∧
  (locate (segs w) (λ seg, A =? segment.mem seg) (region.segments reg) = Some None →
   tm_free shared tx A w = (run rollback tx ;; ret false) w).
Proof.
  intros Hreg. split; [intros Hloc; split|intros Hloc].
  - unfold tm_read. enter_loop Hreg Hloc. done.
  - unfold tm_write. enter_loop Hreg Hloc. done.
  - unfold tm_free. enter_loop Hreg Hloc. done.
Qed.

Lemma unmapped_address_aborts_witness :
  tm_read 1 1 5000 8 2000 ex_w0 = (run rollback 1 ;; ret false) ex_w0 ∧
  tm_read 1 1 5000 8 2000 ex_w0 = Some (false, after (tm_read 1 1 5000 8 2000) ex_w0) ∧
  tm_free 1 1 108 ex_w0 = (run rollback 1 ;; ret false) ex_w0.
Proof.
  destruct (unmapped_address_aborts 1 1 1000 8 2000 5000 true true ex_w0
              (region.mk 100 [1%positive; 2%positive] 16 8) eq_refl)
    as [Hrw _].
  destruct (unmapped_address_aborts 1 1 1000 8 2000 108 true true ex_w0
              (region.mk 100 [1%positive; 2%positive] 16 8) eq_refl)
    as [_ Hfree].
  split; [exact (proj1 (Hrw eq_refl))|]. split; [reflexivity|].
  exact (Hfree eq_refl).
Defined.

(** X19.  A write to a flagged segment aborts the transaction, also when
    the transaction itself freed the segment: the write answers false and
    has rolled the transaction back, and the bytes are those that the
    rollback makes of the bytes before the call. *)
Theorem write_tombstoned_aborts shared tx source size target new_log malloc_ok
    w reg p seg t r w' :
  regions w !! shared = Some reg →
  locate (segs w) (contains target) (region.segments reg) = Some (Some p) →
  segs w !! p = Some seg →
  segment.freed seg = true →
  txs w !! tx = Some t →
  tm_write shared tx source size target new_log malloc_ok w = Some (r, w') →
  r = false ∧
  rolled_back tx w w' ∧
  bytes w' = undo (if transaction.is_ro t then [] else transaction.logs t) (bytes w).
Proof.
  intros Hreg Hloc Hseg Hfreed Ht Hwrite. destruct r.
  - apply tm_write_true in Hwrite
      as (reg' & p' & seg' & _ & _ & Hreg' & Hloc' & Hseg' & Hfreed' & _).
    simplify_eq. congruence.
  - split; [done|].
    pose proof (tm_write_false _ _ _ _ _ _ _ _ _ Hwrite) as Hrb.
    split; [done|].
    destruct Hrb as (wr & u & tr & Hroll & Htr & Hbytes & _ & Hsame).
    destruct (Hsame _ Ht) as [Hlogs Hro].
    apply rollback_inv in Hroll as (tr' & Htr' & _ & _ & Hundo).
    simplify_eq. by rewrite Hundo, Hlogs, Hro, Hbytes.
Qed.

Lemma write_tombstoned_aborts_witness :
  tm_write 1 1 1000 8 200 true true ex3_w
    = Some (false, after (tm_write 1 1 1000 8 200 true true) ex3_w) ∧
  rolled_back 1 ex3_w (after (tm_write 1 1 1000 8 200 true true) ex3_w) ∧
  bytes (after (tm_write 1 1 1000 8 200 true true) ex3_w) 200 = x00.
Proof.
  split; [reflexivity|].
  destruct (write_tombstoned_aborts 1 1 1000 8 200 true true ex3_w
              (region.mk 100 [1%positive; 2%positive] 16 8) 2
              (segment.mk (Mutex true 0) 200 8 true) ex3_t false
              (after (tm_write 1 1 1000 8 200 true true) ex3_w))
    as (_ & Hrb & Hb); try reflexivity.
  split; [exact Hrb|]. rewrite Hb. reflexivity.
Defined.

Lemma lock_is_free_unlocked m : lock_is_free m = true → m = unlocked.
Proof.
  destruct m as [wr rd]. unfold lock_is_free. simpl.
  destruct wr; [done|]. simpl. intros H. apply Nat.eqb_eq in H. by subst.
Qed.

(** X20.  A write that is rolled back leaves no trace on the shared
    state: after a fresh transaction writes to a segment whose lock was
    free and is rolled back, every byte, every segment with its mutex and
    every region is as before the write, and the handle points to
    nothing. *)
Theorem write_then_rollback_round_trip shared tx source size target w reg p seg :
  regions w !! shared = Some reg →
  locate (segs w) (contains target) (region.segments reg) = Some (Some p) →
  segs w !! p = Some seg →
  lock_is_free (segment.lock seg) = true →
  segment.freed seg = false →
  txs w !! tx = Some (fresh_tx shared false) →
  ∃ w1 w2,
    tm_write shared tx source size target true true w = Some (true, w1) ∧
    rollback tx w1 = Some (tt, w2) ∧
    (∀ a, bytes w2 a = bytes w a) ∧
    segs w2 = segs w ∧ regions w2 = regions w ∧ txs w2 = delete tx (txs w).
Proof.
  intros Hreg Hloc Hseg Hfree Hfreed Ht.
  destruct (tm_write_acquires shared tx source size target _ _ _ _ _
              Hreg Hloc Hseg Hfree Hfreed Ht eq_refl)
    as (w1 & Hwrite & Hb1 & Hs1 & Htx1 & Hr1 & _).
  exists w1. destruct w1 as [b1 r1 s1 t1 tr1]. simpl in *. subst.
  eexists. split; [done|]. split.
  - unfold rollback. fwd. reflexivity.
  - simpl. split_and!; try done.
    + intros a. destruct (decide (covers a target size)) as [Ha|Ha].
      * by apply restore_preimage.
      * rewrite restore_out by done. by apply memcpy_out.
    + rewrite insert_insert_eq. apply insert_id. rewrite Hseg. f_equal.
      apply lock_is_free_unlocked in Hfree. destruct seg. simpl in *.
      by subst.
    + by rewrite delete_insert_eq.
Qed.

Lemma write_then_rollback_round_trip_witness :
  ∃ w1 w2,
    tm_write 1 1 1000 8 100 true true ex_w0 = Some (true, w1) ∧
    rollback 1 w1 = Some (tt, w2) ∧
    (∀ a, bytes w2 a = bytes ex_w0 a) ∧
    segs w2 = segs ex_w0 ∧ regions w2 = regions ex_w0 ∧
    txs w2 = delete 1%positive (txs ex_w0).
Proof.
  apply (write_then_rollback_round_trip 1 1 1000 8 100 ex_w0
           (region.mk 100 [1%positive; 2%positive] 16 8) 1
           (segment.mk unlocked 100 16 false)); reflexivity.
Defined.

(** ** Read after write, and the lock it relies on *)

#[local] Instance writers_kept_preorder : PreOrder writers_kept.
Proof.
  split.
  - intros w q s Hq Hw. eauto.
  - intros w1 w2 w3 H12 H23 q s Hq Hw.
    destruct (H12 q s Hq Hw) as (s2 & Hq2 & Hw2). eauto.
Qed.








